(** * The colour bar of the qudi spectrometer GUI

    A shallow embedding of [qudi/gui/gui_components/colorbar/colorbar.py]:
    the [ColorBar] graphics object, which records a gradient legend as
    painter commands, and the [ColorbarWidget], which derives the displayed
    range from the image and keeps legend and image levels up to date.

    Numbers.  Python floats are modelled by rationals ([Q]): arithmetic on
    finite values is exact, rounding is not modelled.  Where the source
    divides numpy arrays, the quotient lives in [npfloat], which adds the
    IEEE special values a division by zero produces.  An image carries its
    dtype, because numpy subtracts two pixels in the dtype of the image:
    for fixed-width integers the difference wraps around. *)

From Stdlib Require Import QArith Qround Qminmax Lqa Lia List Bool ZArith.
From Stdlib Require Import Sorting.Sorted Permutation.
Import ListNotations.
Open Scope Q_scope.

(** ** Python results *)

Module Py.

Inductive exn : Type :=
| ValueError
| IndexError.

Inductive result (A : Type) : Type :=
| Ok (a : A)
| Raise (e : exn).

Arguments Ok {A} a.
Arguments Raise {A} e.

Definition is_ok {A} (r : result A) : bool :=
  match r with Ok _ => true | Raise _ => false end.

End Py.
Import Py.

(** ** The numpy functions the module calls *)

Module Np.

(** The element types of an image that are modelled: floating point, and
    signed or unsigned integers of a given width in bits. *)
Inductive DType : Type :=
| floating
| int_ (bits : positive)
| uint_ (bits : positive).

(** A 2-D image: its dtype and its pixels, row by row.  The pixels of an
    integer image are integers that the dtype can hold. *)
Record Sample : Type := mkSample {
  dtype : DType;
  rows : list (list Q)
}.

Definition float_image (pixels : list (list Q)) : Sample :=
  mkSample floating pixels.

(** The image with further rows below the existing ones. *)
Definition append_rows (a : Sample) (more : list (list Q)) : Sample :=
  mkSample (dtype a) (rows a ++ more).

(** Row-major flattening, the order in which boolean and [nonzero]
    indexing enumerate a 2-D array. *)
Definition ravel (a : Sample) : list Q := concat (rows a).

Definition is_nonzero (x : Q) : bool := negb (Qeq_bool x 0).

(** [a[np.nonzero(a)]]: the nonzero entries, as a 1-D array. *)
Definition nonzero_values (a : Sample) : list Q := filter is_nonzero (ravel a).

(** [np.count_nonzero(a)]. *)
Definition count_nonzero (a : Sample) : nat := length (nonzero_values a).

(** [np.min] / [np.max] of the flattened array; a zero-size array has no
    minimum and the reduction raises [ValueError]. *)
Definition amin (l : list Q) : result Q :=
  match l with
  | [] => Raise ValueError
  | x :: t => Ok (fold_left Qmin t x)
  end.

Definition amax (l : list Q) : result Q :=
  match l with
  | [] => Raise ValueError
  | x :: t => Ok (fold_left Qmax t x)
  end.

(** Quotient of two finite floats, with the IEEE results of a division by
    zero (numpy warns, it does not raise). *)
Inductive npfloat : Type :=
| Fin (q : Q)
| PInf
| NInf
| NaN.

Definition divide (a b : Q) : npfloat :=
  if Qeq_bool b 0 then
    if Qeq_bool a 0 then NaN
    else if Qle_bool 0 a then PInf else NInf
  else Fin (a / b).

(** [c - x] for a finite [c] and an array entry [x]. *)
Definition rsub (c : Q) (x : npfloat) : npfloat :=
  match x with
  | Fin q => Fin (c - q)
  | PInf => NInf
  | NInf => PInf
  | NaN => NaN
  end.

Definition is_nan (x : npfloat) : bool :=
  match x with NaN => true | _ => false end.

(** Sorting, which [np.percentile] performs (by partitioning) before it
    reads the two neighbouring order statistics. *)
Fixpoint insert (x : Q) (l : list Q) : list Q :=
  match l with
  | [] => [x]
  | y :: t => if Qle_bool x y then x :: l else y :: insert x t
  end.

Definition sort (l : list Q) : list Q := fold_right insert [] l.

(** Two's-complement wrap-around into the range of a fixed-width
    integer. *)
Definition wrap_signed (bits : positive) (z : Z) : Z :=
  let m := Z.pow 2 (Zpos bits) in
  (z + m / 2) mod m - m / 2.

Definition wrap_unsigned (bits : positive) (z : Z) : Z :=
  z mod Z.pow 2 (Zpos bits).

(** [np.subtract(b, a)] on two elements of an array of dtype [d]: exact
    for floats, wrapped into the dtype for integers. *)
Definition subtract (d : DType) (b a : Q) : Q :=
  match d with
  | floating => b - a
  | int_ bits => inject_Z (wrap_signed bits (Qfloor (b - a)))
  | uint_ bits => inject_Z (wrap_unsigned bits (Qfloor (b - a)))
  end.

(** numpy's [_lerp] on two elements of an array of dtype [d]: the
    difference [b - a] is formed in that dtype, then linear interpolation
    in floating point, evaluated from the right end when the weight is at
    least one half. *)
Definition lerp (d : DType) (a b t : Q) : Q :=
  let diff_b_a := subtract d b a in
  if Qle_bool (1 # 2) t then b - diff_b_a * (1 - t) else a + diff_b_a * t.

(** The virtual index of the [q]-th percentile among [n] values, for the
    default method 'linear'. *)
Definition virtual_index (n : nat) (q : Q) : Q :=
  (inject_Z (Z.of_nat n) - 1) * (q / 100).

(** The two neighbouring indices; an index at or beyond the last one is
    replaced by the last one. *)
Definition previous_index (n : nat) (v : Q) : nat :=
  if Qle_bool (inject_Z (Z.of_nat n) - 1) v then Nat.pred n
  else Z.to_nat (Qfloor v).

Definition next_index (n : nat) (v : Q) : nat :=
  if Qle_bool (inject_Z (Z.of_nat n) - 1) v then Nat.pred n
  else S (Z.to_nat (Qfloor v)).

Definition gamma (v : Q) : Q := v - inject_Z (Qfloor v).

(** [np.percentile(a, q)] on a 1-D array of dtype [d] with the default
    interpolation.  A percentile outside [0, 100] raises [ValueError]; an
    empty array has no order statistic to index. *)
Definition percentile (d : DType) (a : list Q) (q : Q) : result Q :=
  if negb (Qle_bool 0 q && Qle_bool q 100) then Raise ValueError
  else match a with
       | [] => Raise IndexError
       | _ :: _ =>
           let n := length a in
           let s := sort a in
           let v := virtual_index n q in
           Ok (lerp d (nth (previous_index n v) s 0)
                      (nth (next_index n v) s 0)
                      (gamma v))
       end.

(** The differences numpy forms between values of the array come out
    exact: always for floats, for integers as long as no difference of a
    smaller from a larger value leaves the range of the dtype. *)
Definition exact_differences (d : DType) (values : list Q) : Prop :=
  forall x y, In x values -> In y values -> x <= y ->
              subtract d y x == y - x.

End Np.

(** ** The painter commands a [QPicture] records

    The source draws through a [QPainter] opened on a [QPicture], which
    "is a serialization of painter commands"; the picture is modelled as
    the list of commands recorded between the painter's creation and
    [p.end()].  Opening a painter on a picture starts a new recording. *)

Module Qt.

(** A colour made by [QColor(r, g, b, a)]: four integer channels. *)
Record QColor : Type := mkQColor { red : Z; green : Z; blue : Z; alpha : Z }.

Record QRectF : Type := mkQRectF { rx : Q; ry : Q; rw : Q; rh : Q }.

(** A linear gradient: its start and final points and the
    [setColorAt (position, colour)] calls made on it, in call order. *)
Record QLinearGradient : Type := mkQLinearGradient {
  x_start : Q; y_start : Q;
  x_final : Q; y_final : Q;
  color_stops : list (Np.npfloat * QColor)
}.

Inductive PenColor : Type := Black.

Inductive PainterCmd : Type :=
| DrawBoundingRect                 (* p.drawRect(self.boundingRect()) *)
| SetPen (c : PenColor)
| SetBrush (g : QLinearGradient)
| DrawRect (r : QRectF).

Definition QPicture : Type := list PainterCmd.

Definition pen_rgba (c : PenColor) : QColor :=
  match c with Black => mkQColor 0 0 0 255 end.

(** [v] lies between [a] and [b], in whichever order they come. *)
Definition between (a b v : Q) : bool :=
  Qle_bool (Qmin a b) v && Qle_bool v (Qmax a b).

(** The points of a rectangle, and the points of its outline. *)
Definition covers (r : QRectF) (x y : Q) : bool :=
  between (rx r) (rx r + rw r) x && between (ry r) (ry r + rh r) y.

Definition on_outline (r : QRectF) (x y : Q) : bool :=
  covers r x y &&
  (Qeq_bool x (rx r) || Qeq_bool x (rx r + rw r) ||
   Qeq_bool y (ry r) || Qeq_bool y (ry r + rh r)).

(** What a point of the plane receives when a picture is played. *)
Inductive Paint : Type :=
| Stroke (c : PenColor)
| Fill (g : QLinearGradient).

(** [drawRect]: the rectangle is filled with the brush, if there is one,
    and its outline is then stroked with the pen.  The pen is taken as a
    line without width: it paints the points of the outline. *)
Definition draw (r : QRectF) (pen : PenColor)
           (brush : option QLinearGradient) (x y : Q)
           (acc : option Paint) : option Paint :=
  if on_outline r x y then Some (Stroke pen)
  else if covers r x y then
         match brush with Some g => Some (Fill g) | None => acc end
       else acc.

(** Playing the commands of a picture, for the point [(x, y)]: the last
    paint that reaches the point stays.  [brect] is the rectangle Qt
    reports as bounding rectangle when the first command is recorded. *)
Fixpoint play (brect : QRectF) (cmds : QPicture) (pen : PenColor)
         (brush : option QLinearGradient) (x y : Q)
         (acc : option Paint) : option Paint :=
  match cmds with
  | [] => acc
  | DrawBoundingRect :: k =>
      play brect k pen brush x y (draw brect pen brush x y acc)
  | SetPen c :: k => play brect k c brush x y acc
  | SetBrush g :: k => play brect k pen (Some g) x y acc
  | DrawRect r :: k => play brect k pen brush x y (draw r pen brush x y acc)
  end.

(** A painter starts with a black pen and no brush. *)
Definition paint_at (brect : QRectF) (pic : QPicture) (x y : Q)
  : option Paint :=
  play brect pic Black None x y None.

End Qt.

(** ** [class ColorBar] *)

Module ColorBar.
Import Qt.

(** A colour in float mode: four channels in [0, 1]. *)
Definition Color : Type := (Q * Q * Q * Q)%type.

(** A [pyqtgraph.ColorMap], through what [getStops('float')] returns: the
    stop positions and the colours. *)
Record ColorMap : Type := mkColorMap {
  pos : list Q;
  color : list Color
}.

Definition getStops (cmap : ColorMap) : list Q * list Color :=
  (pos cmap, color cmap).

(** Conversion of a float to the [int] a [QColor] channel takes: the
    fractional part is dropped. *)
Definition to_int (x : Q) : Z := Z.quot (Qnum x) (Zpos (Qden x)).

(** [pg.QtGui.QColor( *[255*c for c in color])] *)
Definition to_QColor (c : Color) : QColor :=
  let '(r, g, b, a) := c in
  mkQColor (to_int (255 * r)) (to_int (255 * g))
           (to_int (255 * b)) (to_int (255 * a)).

Record t : Type := mk {
  stops : list Np.npfloat;
  colors : list Color;
  width : Q;
  pic : QPicture
}.

(** [(self.stops - self.stops.min()) / self.stops.ptp()] *)
Definition rescale (raw : list Q) : result (list Np.npfloat) :=
  match Np.amin raw, Np.amax raw with
  | Ok lo, Ok hi => Ok (map (fun s => Np.divide (s - lo) (hi - lo)) raw)
  | Raise e, _ => Raise e
  | _, Raise e => Raise e
  end.

(** The gradient of [refresh_colorbar]: every stop is placed at
    [1.0 - stop]. *)
Definition gradient (self : t) (w cb_min cb_max : Q) : QLinearGradient :=
  mkQLinearGradient (w / 2) (cb_min * 1) (w / 2) (cb_max * 1)
    (map (fun sc => (Np.rsub 1 (fst sc), to_QColor (snd sc)))
         (combine (stops self) (colors self))).

(** The optional rectangle of [refresh_colorbar]: [xMin], [yMin] and
    [height] are given together when the bar is drawn into a plot that is
    going to be saved. *)
Record Placement : Type := mkPlacement { xMin : Q; yMin : Q; height : Q }.

(** [ColorBar.refresh_colorbar(cb_min, cb_max, width, height, xMin, yMin)].
    The final adjustment of the enclosing view box does not touch the
    object and is left out. *)
Definition refresh_colorbar (self : t) (cb_min cb_max : Q)
           (width_arg : option Q) (place : option Placement) : t :=
  let w := match width_arg with None => width self | Some w => w end in
  let rect :=
    match place with
    | None => mkQRectF 0 cb_min w (cb_max - cb_min)
    | Some p => mkQRectF (xMin p) (yMin p) w (height p)
    end in
  mk (stops self) (colors self) w
     [ DrawBoundingRect;
       SetPen Black;
       SetBrush (gradient self w cb_min cb_max);
       DrawRect rect ].

(** [ColorBar.__init__(cmap, width, cb_min, cb_max)] *)
Definition init (cmap : ColorMap) (w cb_min cb_max : Q) : result t :=
  let '(raw, cols) := getStops cmap in
  match rescale raw with
  | Raise e => Raise e
  | Ok st => Ok (refresh_colorbar (mk st cols w []) cb_min cb_max None None)
  end.

End ColorBar.

(** ** [class ColorbarWidget] *)

Module ColorbarWidget.
Import Np.

(** The calls by which the widget computes and hands on a range, recorded in
    the order in which they happen. *)
Inductive Call : Type :=
| GetCbRange                                          (* self.get_cb_range() *)
| CbRefresh (cb_min cb_max : Q)        (* self._cb.refresh_colorbar(min, max) *)
| SetImage (image : option Sample) (levels : Q * Q).
                                  (* self._image.setImage(image=…, levels=…) *)

(** The widget.  [manual] and [percentile] are the checked states of the
    two buttons of that name, [_min_manual] … [_max_percentile] the values
    of the four spin boxes, [_image] the data held by the image item
    ([None] while it holds none), [_cb] the colour bar.

    The two buttons are declared in [ui_colorbar.ui], which is not among
    the sources; [exclusive] says whether Qt treats them as one exclusive
    group (checking one unchecks the other), and is never changed. *)
Record t : Type := mk {
  exclusive : bool;
  manual : bool;
  percentile : bool;
  _min_percentile : Q;
  _min_manual : Q;
  _max_percentile : Q;
  _max_manual : Q;
  _image : option Sample;
  _cb : ColorBar.t;
  trace : list Call
}.

Definition with_checked (m p : bool) (s : t) : t :=
  mk (exclusive s) m p (_min_percentile s) (_min_manual s)
     (_max_percentile s) (_max_manual s) (_image s) (_cb s) (trace s).

Definition with_min_percentile (v : Q) (s : t) : t :=
  mk (exclusive s) (manual s) (percentile s) v (_min_manual s)
     (_max_percentile s) (_max_manual s) (_image s) (_cb s) (trace s).

Definition with_min_manual (v : Q) (s : t) : t :=
  mk (exclusive s) (manual s) (percentile s) (_min_percentile s) v
     (_max_percentile s) (_max_manual s) (_image s) (_cb s) (trace s).

Definition with_max_percentile (v : Q) (s : t) : t :=
  mk (exclusive s) (manual s) (percentile s) (_min_percentile s)
     (_min_manual s) v (_max_manual s) (_image s) (_cb s) (trace s).

Definition with_max_manual (v : Q) (s : t) : t :=
  mk (exclusive s) (manual s) (percentile s) (_min_percentile s)
     (_min_manual s) (_max_percentile s) v (_image s) (_cb s) (trace s).

Definition with_image (im : option Sample) (s : t) : t :=
  mk (exclusive s) (manual s) (percentile s) (_min_percentile s)
     (_min_manual s) (_max_percentile s) (_max_manual s) im (_cb s) (trace s).

Definition with_cb (cb : ColorBar.t) (s : t) : t :=
  mk (exclusive s) (manual s) (percentile s) (_min_percentile s)
     (_min_manual s) (_max_percentile s) (_max_manual s) (_image s) cb
     (trace s).

Definition record (c : Call) (s : t) : t :=
  mk (exclusive s) (manual s) (percentile s) (_min_percentile s)
     (_min_manual s) (_max_percentile s) (_max_manual s) (_image s) (_cb s)
     (trace s ++ [c]).

(** *** Methods: state passing with exceptions

    A method takes the widget and returns its result, or the exception it
    raised, together with the widget as it left it. *)
Definition M (A : Type) : Type := t -> result A * t.

Definition ret {A} (a : A) : M A := fun s => (Ok a, s).

Definition bind {A B} (m : M A) (k : A -> M B) : M B :=
  fun s => match m s with
           | (Ok a, s') => k a s'
           | (Raise e, s') => (Raise e, s')
           end.

Definition lift {A} (r : result A) : M A := fun s => (r, s).

Definition gets {A} (f : t -> A) : M A := fun s => (Ok (f s), s).

Definition modify (f : t -> t) : M unit := fun s => (Ok tt, f s).

Notation "x <- m ;; k" := (bind m (fun x => k))
  (at level 61, m at next level, right associativity).
Notation "m ;; k" := (bind m (fun _ => k))
  (at level 61, right associativity).

(** [np.count_nonzero(self._image.image)]; an image item without data
    holds [None], which counts as zero nonzero entries. *)
Definition image_count_nonzero (im : option Sample) : nat :=
  match im with
  | Some a => count_nonzero a
  | None => 0%nat
  end.

(** [self._image.image[np.nonzero(self._image.image)]], reached only when
    the count above is at least one; the 1-D array has the dtype of the
    image. *)
Definition image_nonzero (im : option Sample) : list Q :=
  match im with
  | Some a => nonzero_values a
  | None => []
  end.

Definition image_dtype (im : option Sample) : DType :=
  match im with
  | Some a => dtype a
  | None => floating
  end.

(** The value [get_cb_range] computes from the widget. *)
Definition cb_range (self : t) : result (Q * Q) :=
  if manual self || (image_count_nonzero (_image self) <? 1)%nat then
    Ok (_min_manual self, _max_manual self)
  else
    let nz := image_nonzero (_image self) in
    let d := image_dtype (_image self) in
    let low_centile := _min_percentile self in
    let high_centile := _max_percentile self in
    match Np.percentile d nz low_centile with
    | Raise e => Raise e
    | Ok cb_min =>
        match Np.percentile d nz high_centile with
        | Raise e => Raise e
        | Ok cb_max => Ok (cb_min, cb_max)
        end
    end.

Definition get_cb_range : M (Q * Q) :=
  modify (record GetCbRange) ;;
  self <- gets (fun s => s) ;;
  lift (cb_range self).

(** [ColorbarWidget.refresh_colorbar] *)
Definition refresh_colorbar : M unit :=
  r <- get_cb_range ;;
  modify (fun s =>
    record (CbRefresh (fst r) (snd r))
      (with_cb (ColorBar.refresh_colorbar (_cb s) (fst r) (snd r) None None)
               s)).

Definition refresh_image : M unit :=
  image_data <- gets _image ;;
  r <- get_cb_range ;;
  modify (record (SetImage image_data (fst r, snd r))) ;;
  refresh_colorbar.

Definition update_cb_range : M unit :=
  refresh_colorbar ;;
  refresh_image.

(** [button.setChecked(True)] on one of the two buttons. *)
Definition setChecked_manual : M unit :=
  modify (fun s =>
    with_checked true (if exclusive s then false else percentile s) s).

Definition setChecked_percentile : M unit :=
  modify (fun s =>
    with_checked (if exclusive s then false else manual s) true s).

Definition shortcut_to_cb_manual : M unit :=
  setChecked_manual ;;
  update_cb_range.

Definition shortcut_to_cb_centiles : M unit :=
  setChecked_percentile ;;
  update_cb_range.

(** *** The spin boxes

    [ScienDSpinBox] belongs to qudi's widget library.  [setValue] brings
    the value into the box's range, stores it when it differs from the
    current one, and then emits [valueChanged], which runs the connected
    slot before [setValue] returns.  The percentile boxes have the range
    [0, 100]; the manual boxes are unbounded. *)
Definition clamp (lo hi v : Q) : Q :=
  if Qle_bool v lo then lo else if Qle_bool hi v then hi else v.

(** The box took the new value [v]; the connected slot runs. *)
Definition valueChanged_min_manual (v : Q) : M unit :=
  modify (with_min_manual v) ;; shortcut_to_cb_manual.

Definition valueChanged_max_manual (v : Q) : M unit :=
  modify (with_max_manual v) ;; shortcut_to_cb_manual.

Definition valueChanged_min_percentile (v : Q) : M unit :=
  modify (with_min_percentile v) ;; shortcut_to_cb_centiles.

Definition valueChanged_max_percentile (v : Q) : M unit :=
  modify (with_max_percentile v) ;; shortcut_to_cb_centiles.

Definition setValue_min_manual (v : Q) : M unit :=
  cur <- gets _min_manual ;;
  if Qeq_bool v cur then ret tt else valueChanged_min_manual v.

Definition setValue_max_manual (v : Q) : M unit :=
  cur <- gets _max_manual ;;
  if Qeq_bool v cur then ret tt else valueChanged_max_manual v.

Definition setValue_min_percentile (v : Q) : M unit :=
  cur <- gets _min_percentile ;;
  let v' := clamp 0 100 v in
  if Qeq_bool v' cur then ret tt else valueChanged_min_percentile v'.

Definition setValue_max_percentile (v : Q) : M unit :=
  cur <- gets _max_percentile ;;
  let v' := clamp 0 100 v in
  if Qeq_bool v' cur then ret tt else valueChanged_max_percentile v'.

(** [set_image(image_widget)], for an image widget that holds the data
    [img]. *)
Definition set_image (img : Sample) : M unit :=
  modify (with_image (Some img)) ;;
  lo <- lift (Np.amin (ravel img)) ;;
  setValue_min_manual lo ;;
  setValue_min_percentile 0 ;;
  hi <- lift (Np.amax (ravel img)) ;;
  setValue_max_manual hi ;;
  setValue_max_percentile 100 ;;
  refresh_colorbar.

(** A click on one of the two buttons: Qt changes the checked state, then
    emits [clicked], which is connected to [update_cb_range].  In an
    exclusive group the clicked button ends up checked and the other one
    unchecked; otherwise the click toggles the button. *)
Definition click_manual : M unit :=
  modify (fun s =>
    if exclusive s then with_checked true false s
    else with_checked (negb (manual s)) (percentile s) s) ;;
  update_cb_range.

Definition click_percentile : M unit :=
  modify (fun s =>
    if exclusive s then with_checked false true s
    else with_checked (manual s) (negb (percentile s)) s) ;;
  update_cb_range.

(** [ColorbarWidget.__init__]: the spin boxes start at 0 and the
    percentile boxes are set to 0 and 100 before any slot is connected;
    the colour bar is built for the range (0, 100) with width 100.  The
    colour map (a constant of qudi's colour definitions) and the checked
    states the .ui file gives the buttons are parameters. *)
Definition init (ui_exclusive ui_manual ui_percentile : bool)
           (cmap : ColorBar.ColorMap) (image_widget : Sample) : result t :=
  match ColorBar.init cmap 100 0 100 with
  | Raise e => Raise e
  | Ok cb =>
      let s0 := mk ui_exclusive ui_manual ui_percentile 0 0 100 0 None cb [] in
      match (set_image image_widget ;;
             update_cb_range ;;              (* self.percentile.clicked.emit() *)
             setChecked_percentile) s0 with
      | (Ok _, s) => Ok s
      | (Raise e, _) => Raise e
      end
  end.

(** *** The widget as a state machine *)

(** The events.  [Edit_*] is the [valueChanged] signal of a spin box
    that has taken the value [v] after an edit; the boxes emit it when the
    value has changed, which [setValue_*] above tests and the events do
    not: they stand for the signal itself. *)
Inductive Event : Type :=
| Click_manual
| Click_percentile
| Edit_min_manual (v : Q)
| Edit_max_manual (v : Q)
| Edit_min_percentile (v : Q)
| Edit_max_percentile (v : Q)
| Set_image (img : Sample)
| Image_data (im : option Sample).
    (* the owner of the image item replaces or clears its data *)

Definition handle (ev : Event) : M unit :=
  match ev with
  | Click_manual => click_manual
  | Click_percentile => click_percentile
  | Edit_min_manual v => valueChanged_min_manual v
  | Edit_max_manual v => valueChanged_max_manual v
  | Edit_min_percentile v => valueChanged_min_percentile (clamp 0 100 v)
  | Edit_max_percentile v => valueChanged_max_percentile (clamp 0 100 v)
  | Set_image img => set_image img
  | Image_data im => modify (with_image im)
  end.

(** The widget after the event has been handled (also when the handler
    raised: the mutations made before the exception stay). *)
Definition step (s : t) (ev : Event) : t := snd (handle ev s).

Definition run (s : t) (evs : list Event) : t := fold_left step evs s.

Inductive reachable : t -> Prop :=
| reach_init : forall e m p cmap img s,
    init e m p cmap img = Ok s -> reachable s
| reach_step : forall s ev, reachable s -> reachable (step s ev).

(** The mode the range calculation acts on, and the range mode the two
    buttons display. *)
Inductive RangeMode : Type := MANUAL | PERCENTILE.

Definition mode (s : t) : RangeMode :=
  if manual s then MANUAL else PERCENTILE.

(** The events the controller answers with [update_cb_range]: the two
    mode toggles and the four field edits. *)
Definition is_update (ev : Event) : bool :=
  match ev with
  | Set_image _ | Image_data _ => false
  | _ => true
  end.

(** What handling an update event changes before it calls
    [update_cb_range]. *)
Definition setter (ev : Event) (s : t) : t :=
  match ev with
  | Click_manual =>
      if exclusive s then with_checked true false s
      else with_checked (negb (manual s)) (percentile s) s
  | Click_percentile =>
      if exclusive s then with_checked false true s
      else with_checked (manual s) (negb (percentile s)) s
  | Edit_min_manual v => snd (setChecked_manual (with_min_manual v s))
  | Edit_max_manual v => snd (setChecked_manual (with_max_manual v s))
  | Edit_min_percentile v =>
      snd (setChecked_percentile (with_min_percentile (clamp 0 100 v) s))
  | Edit_max_percentile v =>
      snd (setChecked_percentile (with_max_percentile (clamp 0 100 v) s))
  | Set_image _ | Image_data _ => s
  end.

(** A method keeps a property of the widget, whether it returns or
    raises. *)
Definition preserves (P : t -> Prop) {A} (m : M A) : Prop :=
  forall s, P s -> P (snd (m s)).

(** The widget displays the mode [md]: the range calculation acts on it
    and, of the two buttons, exactly the one of that mode is checked. *)
Definition in_mode (md : RangeMode) (s : t) : Prop :=
  mode s = md /\
  percentile s = match md with MANUAL => false | PERCENTILE => true end.

(** A spin box that holds [cur] is given the value [v], and the widget
    goes from [s] to [s']: when [v] is the value held, nothing changes;
    otherwise the widget ends up displaying the mode [md]. *)
Definition edit_rule (md : RangeMode) (v cur : Q) (s s' : t) : Prop :=
  (v == cur -> s' = s) /\ (~ v == cur -> in_mode md s').

(** What the user has set: the two buttons and the four bounds. *)
Definition settings (s : t) : bool * bool * (Q * Q) * (Q * Q) :=
  (manual s, percentile s,
   (_min_manual s, _max_manual s),
   (_min_percentile s, _max_percentile s)).

(** The four stored bounds, and their equality as numbers. *)
Definition bounds (s : t) : Q * Q * Q * Q :=
  (_min_manual s, _max_manual s, _min_percentile s, _max_percentile s).

Definition bounds_eq (x y : Q * Q * Q * Q) : Prop :=
  let '(a, b, c, d) := x in
  let '(a', b', c', d') := y in
  a == a' /\ b == b' /\ c == c' /\ d == d'.

(** The ways in which the methods change the widget; a property closed
    under them is kept by every method. *)
Record setter_closed (P : t -> Prop) : Prop := {
  closed_record : forall c s, P s -> P (record c s);
  closed_cb : forall cb s, P s -> P (with_cb cb s);
  closed_image : forall im s, P s -> P (with_image im s);
  closed_click_manual : forall s, P s -> P (setter Click_manual s);
  closed_click_percentile : forall s, P s -> P (setter Click_percentile s);
  closed_setChecked_manual : forall s, P s ->
    P (with_checked true (if exclusive s then false else percentile s) s);
  closed_setChecked_percentile : forall s, P s ->
    P (with_checked (if exclusive s then false else manual s) true s);
  closed_min_manual : forall v s, P s -> P (with_min_manual v s);
  closed_max_manual : forall v s, P s -> P (with_max_manual v s);
  closed_min_percentile :
    forall v s, P s -> P (with_min_percentile (clamp 0 100 v) s);
  closed_max_percentile :
    forall v s, P s -> P (with_max_percentile (clamp 0 100 v) s)
}.

(** In an exclusive group exactly one of the two buttons is checked. *)
Definition one_checked (s : t) : Prop :=
  exclusive s = true -> xorb (manual s) (percentile s) = true.

(** Both percentile boxes hold a value of their range. *)
Definition percentiles_in_range (s : t) : Prop :=
  (0 <= _min_percentile s /\ _min_percentile s <= 100) /\
  (0 <= _max_percentile s /\ _max_percentile s <= 100).

(** The differences numpy forms between nonzero pixels of the widget's
    image come out exact in the dtype of the image. *)
Definition differences_exact (s : t) : Prop :=
  exact_differences (image_dtype (_image s)) (image_nonzero (_image s)).

(** Reading the trace: the calls made while an event is handled, how many
    of them compute the range, and the ranges handed to the legend and to
    the image. *)
Definition calls_during (s : t) (ev : Event) : list Call :=
  skipn (length (trace s)) (trace (step s ev)).

Fixpoint range_computations (calls : list Call) : nat :=
  match calls with
  | [] => 0
  | GetCbRange :: k => S (range_computations k)
  | _ :: k => range_computations k
  end.

Fixpoint legend_ranges (calls : list Call) : list (Q * Q) :=
  match calls with
  | [] => []
  | CbRefresh a b :: k => (a, b) :: legend_ranges k
  | _ :: k => legend_ranges k
  end.

Fixpoint image_levels (calls : list Call) : list (Q * Q) :=
  match calls with
  | [] => []
  | SetImage _ l :: k => l :: image_levels k
  | _ :: k => image_levels k
  end.

(** The legend after one [update_cb_range] for the range [r]: the colour
    bar is redrawn by [refresh_colorbar] and again by [refresh_image]. *)
Definition redrawn (cb : ColorBar.t) (r : Q * Q) : ColorBar.t :=
  ColorBar.refresh_colorbar
    (ColorBar.refresh_colorbar cb (fst r) (snd r) None None)
    (fst r) (snd r) None None.

(** The calls of one [update_cb_range] for the range [r]. *)
Definition update_calls (im : option Sample) (r : Q * Q) : list Call :=
  [ GetCbRange; CbRefresh (fst r) (snd r);
    GetCbRange; SetImage im (fst r, snd r);
    GetCbRange; CbRefresh (fst r) (snd r) ].

End ColorbarWidget.

(** ** The range calculation as the specification words it *)

Module Spec.
Import Np.









End Spec.

(** ** The data classes of [interface/spectrometer_interface.py] *)

Module SpectrometerInterface.

Inductive PortType : Type :=
| INPUT_FRONT
| INPUT_SIDE
| OUTPUT_FRONT
| OUTPUT_SIDE.

(** [class Grating]: the three attributes start as [None]. *)
Record Grating : Type := mkGrating {
  ruling : option Q;
  blaze : option Q;
  wavelength_max : option Q
}.

Definition Grating_init : Grating := mkGrating None None None.

(** The [ScalarConstraint] of qudi's core, through the two attributes the
    module writes; both start at 0.0. *)
Record ScalarConstraint : Type := mkScalarConstraint { min : Q; max : Q }.

(** [class Port]: a new port is motorized and has a fresh constraint. *)
Record Port : Type := mkPort {
  type : PortType;
  is_motorized : bool;
  constraints : ScalarConstraint
}.

Definition Port_init (_type : PortType) : Port :=
  mkPort _type true (mkScalarConstraint 0 0).

Record Constraints : Type := mkConstraints {
  focal_length : option Q;
  angular_deviation : option Q;
  focal_tilt : option Q;
  gratings : list Grating;
  ports : list Port
}.

Definition Constraints_init : Constraints :=
  mkConstraints None None None [] [].

End SpectrometerInterface.

(** ** [class CornerstoneSpectrometer] *)

Module CornerstoneSpectrometer.
Import SpectrometerInterface.

Inductive exn : Type :=
| IOError
| IndexError.

(** A returned value, or the exception raised. *)
Definition result (A : Type) : Type := (exn + A)%type.

(** The configuration options of the module. *)
Record Config : Type := mkConfig {
  _shutter_auto : bool;
  _grating_ruling : list Q;
  _grating_blaze : list Q;
  _grating_max_wavelength : list Q
}.

(** The calls made on the device object of the vendor's DLL. *)
Inductive DeviceCall : Type :=
| Connect
| SetShutter (open : bool)
| SetVendorID (n : Z)
| SetProductID (n : Z)
| SetWaitTime (n : Z)
| SetDeviceTimeout (n : Z)
| SetGrating (n : Z)
| SetWavelength (nm : Q)
| Disconnect.

(** The states of a qudi module that the code reads and moves between:
    [lock] takes an idle module to locked, [unlock] takes it back. *)
Inductive ModuleState : Type := deactivated | idle | locked.

(** The module: its configuration, its state, the calls it has made on
    the device, the number of warnings it has logged, and the constraints
    built at activation. *)
Record t : Type := mk {
  config : Config;
  module_state : ModuleState;
  device_calls : list DeviceCall;
  warnings : nat;
  _constraints : option Constraints
}.

Definition call (c : DeviceCall) (self : t) : t :=
  mk (config self) (module_state self) (device_calls self ++ [c])
     (warnings self) (_constraints self).

Definition with_state (st : ModuleState) (self : t) : t :=
  mk (config self) st (device_calls self) (warnings self)
     (_constraints self).

Definition warn (self : t) : t :=
  mk (config self) (module_state self) (device_calls self)
     (S (warnings self)) (_constraints self).

Definition with_constraints (c : Constraints) (self : t) : t :=
  mk (config self) (module_state self) (device_calls self) (warnings self)
     (Some c).

(** [l[i]] on a Python list, for an index that is not negative. *)
Definition getitem (l : list Q) (i : nat) : result Q :=
  match nth_error l i with
  | Some x => inr x
  | None => inl IndexError
  end.

(** The loop [for i in range(number_of_gratings)] of
    [_build_constraints], appending to [constraints.gratings]. *)
Fixpoint build_gratings (cfg : Config) (indices : list nat)
         (acc : list Grating) : result (list Grating) :=
  match indices with
  | [] => inr acc
  | i :: rest =>
      match getitem (_grating_ruling cfg) i with
      | inl e => inl e
      | inr r =>
          match getitem (_grating_blaze cfg) i with
          | inl e => inl e
          | inr b =>
              match getitem (_grating_max_wavelength cfg) i with
              | inl e => inl e
              | inr m =>
                  build_gratings cfg rest
                    (acc ++ [mkGrating (Some r) (Some b) (Some m)])
              end
          end
      end
  end.

(** [port.constraints.min = 10e-6; port.constraints.max = 1000e-6] *)
Definition set_slit_range (port : Port) : Port :=
  mkPort (type port) (is_motorized port)
         (mkScalarConstraint (10 / 1000000) (1000 / 1000000)).

Definition number_of_gratings : nat := 2.

Definition _build_constraints (cfg : Config) : result Constraints :=
  match build_gratings cfg (seq 0 number_of_gratings)
                       (gratings Constraints_init) with
  | inl e => inl e
  | inr gs =>
      let input_port_side :=
        mkPort INPUT_SIDE false (constraints (Port_init INPUT_SIDE)) in
      let output_port_side :=
        mkPort OUTPUT_SIDE false (constraints (Port_init OUTPUT_SIDE)) in
      inr (mkConstraints
             (focal_length Constraints_init)
             (angular_deviation Constraints_init)
             (focal_tilt Constraints_init)
             gs
             (map set_slit_range
                  (ports Constraints_init
                     ++ [input_port_side] ++ [output_port_side])))
  end.

(** [on_activate], from the creation of the device object on (loading
    the vendor's DLL is not modelled); [connects] is the answer of
    [self._device.connect()].  The module is returned as the method leaves
    it, also when it raises. *)
Definition on_activate (connects : bool) (self : t) : result unit * t :=
  let s1 := call Connect self in
  if negb connects then (inl IOError, s1)
  else
    let s2 := if _shutter_auto (config self)
              then call (SetShutter true) s1 else s1 in
    let s3 := call (SetDeviceTimeout 500)
                (call (SetWaitTime 100)
                   (call (SetProductID 12)
                      (call (SetVendorID 1180) s2))) in
    match _build_constraints (config self) with
    | inl e => (inl e, s3)
    | inr c => (inr tt, with_constraints c s3)
    end.

Definition on_deactivate (self : t) : t :=
  let s1 := if _shutter_auto (config self)
            then call (SetShutter false) self else self in
  call Disconnect s1.

(** [get_constraints] reads the attribute [on_activate] assigns.  [None]
    stands for a module on which the attribute has not been assigned yet,
    where the read does not return a value (Python raises
    [AttributeError]). *)
Definition get_constraints (self : t) : option Constraints :=
  _constraints self.

(** [self.module_state() == "idle"] *)
Definition get_ready_state (self : t) : bool :=
  match module_state self with
  | idle => true
  | _ => false
  end.

Definition set_grating (value : Z) (self : t) : t :=
  if get_ready_state self then
    with_state idle (call (SetGrating (value + 1)) (with_state locked self))
  else warn self.

(** [float(value) * 1.0e9]; the pause after the call is not modelled. *)
Definition set_wavelength (value : Q) (self : t) : t :=
  if get_ready_state self then
    with_state idle
      (call (SetWavelength (value * 1000000000)) (with_state locked self))
  else warn self.

Definition get_input_port (self : t) : PortType := INPUT_SIDE.
Definition get_output_port (self : t) : PortType := OUTPUT_SIDE.
Definition set_input_port (value : PortType) (self : t) : t := self.
Definition set_output_port (value : PortType) (self : t) : t := self.

(** The two setters that talk to the device, as requests. *)
Inductive Request : Type :=
| Set_grating (value : Z)
| Set_wavelength (value : Q).

Definition serve (self : t) (r : Request) : t :=
  match r with
  | Set_grating v => set_grating v self
  | Set_wavelength v => set_wavelength v self
  end.

Definition serve_all (self : t) (rs : list Request) : t :=
  fold_left serve rs self.

(** The device call a request stands for. *)
Definition device_call_of (r : Request) : DeviceCall :=
  match r with
  | Set_grating v => SetGrating (v + 1)
  | Set_wavelength v => SetWavelength (v * 1000000000)
  end.

End CornerstoneSpectrometer.

(** ** Concrete data used in the examples *)

Module Examples.

(** A three-stop grey colour map. *)
Definition grey_cmap : ColorBar.ColorMap :=
  ColorBar.mkColorMap
    [0; 1 # 2; 1]
    [(0, 0, 0, 1); (1 # 2, 1 # 2, 1 # 2, 1); (1, 1, 1, 1)].

(** A colour map whose two stops sit at the same position. *)
Definition collapsed_cmap : ColorBar.ColorMap :=
  ColorBar.mkColorMap
    [1 # 2; 1 # 2]
    [(0, 0, 0, 1); (1, 1, 1, 1)].

(** A scan that has not produced any count yet. *)
Definition zero_image : Np.Sample := Np.float_image [[0; 0]; [0; 0]].

(** A 10 x 10 scan: 60 cells still at 0, the others holding 1 .. 40. *)
Definition grid_10x10 : Np.Sample :=
  Np.float_image [
     [0; 1; 0; 2; 0; 0; 3; 0; 4; 0];
     [0; 5; 0; 6; 0; 0; 7; 0; 8; 0];
     [0; 9; 0; 10; 0; 0; 11; 0; 12; 0];
     [0; 13; 0; 14; 0; 0; 15; 0; 16; 0];
     [0; 17; 0; 18; 0; 0; 19; 0; 20; 0];
     [0; 21; 0; 22; 0; 0; 23; 0; 24; 0];
     [0; 25; 0; 26; 0; 0; 27; 0; 28; 0];
     [0; 29; 0; 30; 0; 0; 31; 0; 32; 0];
     [0; 33; 0; 34; 0; 0; 35; 0; 36; 0];
     [0; 37; 0; 38; 0; 0; 39; 0; 40; 0] ].

Definition one_to_forty : list Q :=
  map (fun k => inject_Z (Z.of_nat k)) (seq 1 40).

(** The colour bar the widget builds in [init_colorbar]. *)
Definition grey_bar : ColorBar.t :=
  Eval vm_compute in
    match ColorBar.init grey_cmap 100 0 100 with
    | Py.Ok cb => cb
    | Py.Raise _ => ColorBar.mk [] [] 100 []
    end.

(** The widget an event sequence leads to, starting from [__init__]
    (a widget without colour bar stands in when [__init__] raises). *)
Definition built (ui_exclusive ui_manual ui_percentile : bool)
           (img : Np.Sample) (evs : list ColorbarWidget.Event)
  : ColorbarWidget.t :=
  match ColorbarWidget.init ui_exclusive ui_manual ui_percentile
                            grey_cmap img with
  | Py.Ok s => ColorbarWidget.run s evs
  | Py.Raise _ =>
      ColorbarWidget.mk ui_exclusive ui_manual ui_percentile 0 0 100 0 None
                        (ColorBar.mk [] [] 100 []) []
  end.

(** Freshly built for the 10 x 10 scan, with exclusive buttons. *)
Definition grid_widget : ColorbarWidget.t :=
  Eval vm_compute in built true false true grid_10x10 [].


(** Built for the empty scan; the image item is then cleared. *)
Definition idle_widget : ColorbarWidget.t :=
  Eval vm_compute in
    built true false true zero_image [ColorbarWidget.Image_data None].

(** Built for the 10 x 10 scan; the user then narrows the percentiles to
    10 and 90 and enters 3 as manual minimum. *)
Definition tuned_widget : ColorbarWidget.t :=
  Eval vm_compute in
    built true false true grid_10x10
          [ColorbarWidget.Edit_min_percentile 10;
           ColorbarWidget.Edit_max_percentile 90;
           ColorbarWidget.Edit_min_manual 3].

(** Built from a .ui file whose two buttons are not exclusive and of
    which "manual" starts checked. *)
Definition both_checked_widget : ColorbarWidget.t :=
  Eval vm_compute in built false true false grid_10x10 [].

(** Two scans with the same extremes 0 and 5 but different nonzero
    values. *)
Definition scan_a : Np.Sample := Np.float_image [[0; 1; 5]].
Definition scan_b : Np.Sample := Np.float_image [[0; 2; 5]].

(** Built for [scan_a], with exclusive buttons. *)
Definition scan_a_widget : ColorbarWidget.t :=
  Eval vm_compute in built true false true scan_a [].

(** Built for a scan whose measured cells all hold 7. *)
Definition seven_widget : ColorbarWidget.t :=
  Eval vm_compute in
    built true false true (Np.float_image [[0; 7]; [7; 0]]) [].


(** A scan of signed 8-bit counts whose two values lie 200 apart, more
    than an 8-bit integer holds. *)
Definition int8_scan : Np.Sample := Np.mkSample (Np.int_ 8) [[-100; 100]].


(** Built for the 8-bit scan; the percentiles are then set to 25 and
    49. *)
Definition int8_quartile_widget : ColorbarWidget.t :=
  Eval vm_compute in
    built true false true int8_scan
          [ColorbarWidget.Edit_max_percentile 49;
           ColorbarWidget.Edit_min_percentile 25].

(** A configuration of the Cornerstone module with three gratings
    listed. *)
Definition three_gratings : CornerstoneSpectrometer.Config :=
  CornerstoneSpectrometer.mkConfig true
    [1200000; 2400000; 600000]
    [3 / 10000000; 275 / 1000000000; 5 / 10000000]
    [7 / 10000000; 7 / 10000000; 14 / 10000000].

(** A configuration that lists only one blaze wavelength. *)
Definition one_blaze : CornerstoneSpectrometer.Config :=
  CornerstoneSpectrometer.mkConfig true
    [1200000; 2400000] [3 / 10000000] [7 / 10000000; 7 / 10000000].

End Examples.

(** * Properties *)

(** ** Order statistics *)

Module NpFacts.
Import Np.

Lemma insert_length (x : Q) (l : list Q) :
  length (insert x l) = S (length l).
Proof.
  induction l as [|y t IH]; simpl; [reflexivity|].
  destruct (Qle_bool x y); simpl; [reflexivity | now rewrite IH].
Qed.

Lemma sort_length (l : list Q) : length (sort l) = length l.
Proof.
  induction l as [|x t IH]; simpl; [reflexivity|].
  fold (sort t). now rewrite insert_length, IH.
Qed.

Lemma insert_perm (x : Q) (l : list Q) : Permutation (x :: l) (insert x l).
Proof.
  induction l as [|y t IH]; simpl; [reflexivity|].
  destruct (Qle_bool x y); [reflexivity|].
  rewrite perm_swap. now constructor.
Qed.

Lemma sort_perm (l : list Q) : Permutation l (sort l).
Proof.
  induction l as [|x t IH]; simpl; [constructor|].
  fold (sort t). rewrite <- insert_perm. now constructor.
Qed.

Lemma insert_sorted (x : Q) (l : list Q) :
  StronglySorted Qle l -> StronglySorted Qle (insert x l).
Proof.
  induction 1 as [|y t Ht IH Hy]; simpl.
  - repeat constructor.
  - destruct (Qle_bool x y) eqn:E.
    + apply Qle_bool_iff in E.
      constructor; [now constructor|].
      constructor; [exact E|].
      rewrite Forall_forall in Hy |- *. intros z Hz.
      apply Qle_trans with y; auto.
    + assert (y <= x) as Hyx.
      { destruct (Qlt_le_dec y x) as [H|H]; [now apply Qlt_le_weak|].
        apply Qle_bool_iff in H. congruence. }
      constructor; [exact IH|].
      rewrite Forall_forall in Hy |- *. intros z Hz.
      apply (Permutation_in _ (Permutation_sym (insert_perm x t))) in Hz.
      destruct Hz as [<-|Hz]; auto.
Qed.

Lemma sort_sorted (l : list Q) : StronglySorted Qle (sort l).
Proof.
  induction l as [|x t IH]; simpl; [constructor|].
  now apply insert_sorted.
Qed.

Lemma sorted_nth_le (s : list Q) (d : Q) :
  StronglySorted Qle s ->
  forall i j, (i <= j)%nat -> (j < length s)%nat -> nth i s d <= nth j s d.
Proof.
  induction 1 as [|x t Ht IH Hx]; intros i j Hij Hj; simpl in Hj; [lia|].
  destruct i as [|i], j as [|j]; simpl; try lia.
  - apply Qle_refl.
  - rewrite Forall_forall in Hx. apply Hx, nth_In. lia.
  - apply IH; lia.
Qed.

Lemma sort_nth_le (l : list Q) (i j : nat) :
  (i <= j)%nat -> (j < length l)%nat ->
  nth i (sort l) 0 <= nth j (sort l) 0.
Proof.
  intros Hij Hj. apply sorted_nth_le; [apply sort_sorted|exact Hij|].
  now rewrite sort_length.
Qed.

Lemma wrap_signed_0 (bits : positive) : wrap_signed bits 0 = 0%Z.
Proof.
  unfold wrap_signed. cbv zeta.
  assert (0 < 2 ^ Z.pos bits)%Z by (apply Z.pow_pos_nonneg; lia).
  rewrite Z.add_0_l, Z.mod_small; [lia|].
  split; [apply Z.div_pos; lia | apply Z.div_lt; lia].
Qed.

Lemma wrap_unsigned_0 (bits : positive) : wrap_unsigned bits 0 = 0%Z.
Proof. unfold wrap_unsigned. apply Z.mod_0_l. lia. Qed.

(** Two equal values have difference 0 in every dtype. *)
Lemma subtract_same (d : DType) (a b : Q) : a == b -> subtract d b a == 0.
Proof.
  intros E. assert (b - a == 0) as E0 by lra.
  destruct d as [|bits|bits]; unfold subtract.
  - exact E0.
  - rewrite (Qfloor_comp _ _ E0). change (Qfloor 0) with 0%Z.
    now rewrite wrap_signed_0.
  - rewrite (Qfloor_comp _ _ E0). change (Qfloor 0) with 0%Z.
    now rewrite wrap_unsigned_0.
Qed.

Lemma exact_differences_floating (values : list Q) :
  exact_differences floating values.
Proof. intros x y _ _ _. simpl. reflexivity. Qed.

(** Unsigned integers never wrap here, since the smaller value is
    subtracted from the larger one. *)
Lemma exact_differences_uint (bits : positive) (values : list Q) :
  (forall x, In x values ->
             exists z, x == inject_Z z /\ (0 <= z < 2 ^ Zpos bits)%Z) ->
  exact_differences (uint_ bits) values.
Proof.
  intros H x y Hx Hy Hxy.
  destruct (H x Hx) as (zx & Ex & Rx). destruct (H y Hy) as (zy & Ey & Ry).
  assert (zx <= zy)%Z as Hz by (rewrite Zle_Qle, <- Ex, <- Ey; exact Hxy).
  assert (y - x == inject_Z (zy - zx)) as E.
  { unfold Z.sub. rewrite inject_Z_plus, inject_Z_opp, Ex, Ey. reflexivity. }
  unfold subtract. rewrite (Qfloor_comp _ _ E), Qfloor_Z, E.
  unfold wrap_unsigned. rewrite Z.mod_small by lia. reflexivity.
Qed.

(** Signed integers do not wrap as long as the largest difference stays
    below half the range of the dtype. *)
Lemma exact_differences_int (bits : positive) (values : list Q) :
  (forall x, In x values -> exists z, x == inject_Z z) ->
  (forall x y, In x values -> In y values ->
               y - x < inject_Z (2 ^ Zpos bits / 2)) ->
  exact_differences (int_ bits) values.
Proof.
  intros H Hr x y Hx Hy Hxy.
  destruct (H x Hx) as (zx & Ex). destruct (H y Hy) as (zy & Ey).
  assert (zx <= zy)%Z as Hz by (rewrite Zle_Qle, <- Ex, <- Ey; exact Hxy).
  assert (y - x == inject_Z (zy - zx)) as E.
  { unfold Z.sub. rewrite inject_Z_plus, inject_Z_opp, Ex, Ey. reflexivity. }
  pose proof (Hr x y Hx Hy) as Hlt. rewrite E in Hlt.
  rewrite <- Zlt_Qlt in Hlt.
  unfold subtract. rewrite (Qfloor_comp _ _ E), Qfloor_Z, E.
  unfold wrap_signed. cbv zeta.
  assert (0 < 2 ^ Z.pos bits)%Z as Hm by (apply Z.pow_pos_nonneg; lia).
  assert (2 ^ Z.pos bits = 2 * 2 ^ (Z.pos bits - 1))%Z as Hpow.
  { rewrite <- Z.pow_succ_r by lia. f_equal. lia. }
  assert (2 ^ Z.pos bits / 2 = 2 ^ (Z.pos bits - 1))%Z as Hhalf.
  { rewrite Hpow, Z.mul_comm, Z.div_mul by lia. reflexivity. }
  rewrite Hhalf in *. rewrite Z.mod_small by lia.
  apply inject_Z_injective. lia.
Qed.

Lemma exact_differences_perm (d : DType) (l l' : list Q) :
  Permutation l l' -> exact_differences d l -> exact_differences d l'.
Proof.
  intros P H x y Hx Hy.
  apply Permutation_sym in P.
  apply H; [exact (Permutation_in _ P Hx) | exact (Permutation_in _ P Hy)].
Qed.

(** With an exact difference, [lerp] is the usual interpolation,
    whichever end it starts from. *)
Lemma lerp_eq (d : DType) (a b t : Q) :
  subtract d b a == b - a -> lerp d a b t == a + (b - a) * t.
Proof.
  intros E. unfold lerp. cbv zeta.
  destruct (Qle_bool (1 # 2) t); rewrite E; ring.
Qed.

Lemma lerp_same (d : DType) (a t : Q) : lerp d a a t == a.
Proof.
  unfold lerp. cbv zeta.
  pose proof (subtract_same d a a (Qeq_refl a)) as E.
  destruct (Qle_bool (1 # 2) t); rewrite E; ring.
Qed.

(** At weight 0 the interpolation returns its left end, whatever the
    difference came out as. *)
Lemma lerp_0 (d : DType) (a b t : Q) : t == 0 -> lerp d a b t == a.
Proof.
  intros E. unfold lerp. cbv zeta.
  destruct (Qle_bool (1 # 2) t) eqn:T.
  - apply Qle_bool_iff in T. lra.
  - rewrite E. ring.
Qed.

Lemma lerp_bounds (d : DType) (a b t : Q) :
  subtract d b a == b - a ->
  a <= b -> 0 <= t -> t <= 1 -> a <= lerp d a b t /\ lerp d a b t <= b.
Proof.
  intros E Hab H0 H1. rewrite (lerp_eq _ _ _ _ E).
  assert (0 <= (b - a) * t) by (apply Qmult_le_0_compat; lra).
  assert (0 <= (b - a) * (1 - t)) by (apply Qmult_le_0_compat; lra).
  split; lra.
Qed.



Lemma gamma_bounds (v : Q) : 0 <= gamma v /\ gamma v < 1.
Proof.
  unfold gamma. pose proof (Qfloor_le v) as H1.
  pose proof (Qlt_floor v) as H2.
  rewrite inject_Z_plus in H2. change (inject_Z 1) with 1 in H2.
  split; lra.
Qed.

Lemma Qfloor_nonneg (v : Q) : 0 <= v -> (0 <= Qfloor v)%Z.
Proof.
  intros H. change 0%Z with (Qfloor 0). now apply Qfloor_resp_le.
Qed.

Lemma virtual_index_bounds (n : nat) (q : Q) :
  (1 <= n)%nat -> 0 <= q -> q <= 100 ->
  0 <= virtual_index n q /\ virtual_index n q <= inject_Z (Z.of_nat n) - 1.
Proof.
  intros Hn H0 H1. unfold virtual_index.
  assert (1 <= inject_Z (Z.of_nat n)) as HN.
  { change 1 with (inject_Z 1). rewrite <- Zle_Qle. lia. }
  assert (0 <= q / 100 /\ q / 100 <= 1) as [Ha Hb].
  { split.
    - apply Qle_shift_div_l; lra.
    - apply Qle_shift_div_r; lra. }
  assert (0 <= (inject_Z (Z.of_nat n) - 1) * (q / 100))
    by (apply Qmult_le_0_compat; lra).
  assert (0 <= (inject_Z (Z.of_nat n) - 1) * (1 - q / 100))
    by (apply Qmult_le_0_compat; lra).
  split; lra.
Qed.


(** Below the last index, the two neighbours are [floor v] and
    [floor v + 1], both inside the array. *)
Lemma inner_indices (n : nat) (v : Q) :
  0 <= v -> v < inject_Z (Z.of_nat n) - 1 ->
  previous_index n v = Z.to_nat (Qfloor v) /\
  next_index n v = S (Z.to_nat (Qfloor v)) /\
  (S (Z.to_nat (Qfloor v)) < n)%nat.
Proof.
  intros H0 Hv. unfold previous_index, next_index.
  destruct (Qle_bool (inject_Z (Z.of_nat n) - 1) v) eqn:E.
  { apply Qle_bool_iff in E. lra. }
  repeat split.
  pose proof (Qfloor_le v) as Hf. pose proof (Qfloor_nonneg v H0) as Hp.
  assert (inject_Z (Qfloor v) < inject_Z (Z.of_nat n - 1)) as Hlt.
  { unfold Zminus. rewrite inject_Z_plus, inject_Z_opp.
    change (inject_Z 1) with 1. lra. }
  rewrite <- Zlt_Qlt in Hlt. lia.
Qed.

Lemma last_indices (n : nat) (v : Q) :
  inject_Z (Z.of_nat n) - 1 <= v ->
  previous_index n v = Nat.pred n /\ next_index n v = Nat.pred n.
Proof.
  intros Hv. unfold previous_index, next_index.
  apply Qle_bool_iff in Hv. now rewrite Hv.
Qed.

Section OrderStatistic.

Variable d : DType.
Variable s : list Q.
Hypothesis s_sorted : StronglySorted Qle s.
Hypothesis s_nonempty : (1 <= length s)%nat.
Hypothesis s_exact : exact_differences d s.

Let n := length s.
Let value (v : Q) : Q :=
  lerp d (nth (previous_index n v) s 0) (nth (next_index n v) s 0) (gamma v).

Lemma neighbours_exact (i j : nat) :
  (i <= j)%nat -> (j < length s)%nat ->
  subtract d (nth j s 0) (nth i s 0) == nth j s 0 - nth i s 0.
Proof.
  intros Hij Hj. apply s_exact.
  - apply nth_In. lia.
  - now apply nth_In.
  - now apply sorted_nth_le.
Qed.

Lemma value_between (v : Q) :
  0 <= v ->
  nth (previous_index n v) s 0 <= value v /\
  value v <= nth (next_index n v) s 0.
Proof.
  intros H0. unfold value.
  destruct (Qlt_le_dec v (inject_Z (Z.of_nat n) - 1)) as [Hv|Hv].
  - destruct (inner_indices n v H0 Hv) as (-> & -> & Hlt).
    destruct (gamma_bounds v).
    apply lerp_bounds; try lra.
    + apply neighbours_exact; auto.
    + apply sorted_nth_le; auto.
  - destruct (last_indices n v Hv) as (-> & ->).
    rewrite lerp_same. split; apply Qle_refl.
Qed.

Lemma next_index_lt (v : Q) : 0 <= v -> (next_index n v < n)%nat.
Proof.
  intros H0.
  destruct (Qlt_le_dec v (inject_Z (Z.of_nat n) - 1)) as [Hv|Hv].
  - destruct (inner_indices n v H0 Hv) as (_ & -> & Hlt). exact Hlt.
  - destruct (last_indices n v Hv) as (_ & ->). subst n. lia.
Qed.

Lemma previous_index_lt (v : Q) : 0 <= v -> (previous_index n v < n)%nat.
Proof.
  intros H0.
  destruct (Qlt_le_dec v (inject_Z (Z.of_nat n) - 1)) as [Hv|Hv].
  - destruct (inner_indices n v H0 Hv) as (-> & _ & Hlt). lia.
  - destruct (last_indices n v Hv) as (-> & _). subst n. lia.
Qed.


End OrderStatistic.

End NpFacts.

(** ** [np.percentile] *)

Module PercentileFacts.
Import Np NpFacts.

Lemma in_range_test (q : Q) :
  0 <= q -> q <= 100 -> negb (Qle_bool 0 q && Qle_bool q 100) = false.
Proof.
  intros H0 H1. apply Qle_bool_iff in H0, H1. now rewrite H0, H1.
Qed.

(** On a non-empty array and a percentile in range, the call returns. *)
Lemma percentile_value (d : DType) (a : list Q) (q : Q) :
  a <> [] -> 0 <= q -> q <= 100 ->
  percentile d a q =
  Ok (lerp d (nth (previous_index (length a) (virtual_index (length a) q))
                  (sort a) 0)
             (nth (next_index (length a) (virtual_index (length a) q))
                  (sort a) 0)
             (gamma (virtual_index (length a) q))).
Proof.
  intros Ha H0 H1. unfold percentile. rewrite in_range_test by assumption.
  destruct a; [contradiction | reflexivity].
Qed.

Lemma nonempty_length {A} (a : list A) : a <> [] -> (1 <= length a)%nat.
Proof. destruct a; simpl; [contradiction | lia]. Qed.

Lemma sort_exact (d : DType) (a : list Q) :
  exact_differences d a -> exact_differences d (sort a).
Proof. apply exact_differences_perm, sort_perm. Qed.


(** Every percentile lies between the smallest and the largest value. *)
Lemma percentile_between (d : DType) (a : list Q) (q : Q) :
  exact_differences d a ->
  a <> [] -> 0 <= q -> q <= 100 ->
  exists p, percentile d a q = Ok p /\
            nth 0 (sort a) 0 <= p /\ p <= nth (Nat.pred (length a)) (sort a) 0.
Proof.
  intros Hd Ha H0 H1.
  pose proof (nonempty_length a Ha) as Hn.
  rewrite (percentile_value d a q) by auto.
  eexists. split; [reflexivity|].
  destruct (virtual_index_bounds (length a) q Hn H0 H1) as [Hv0 Hv1].
  pose proof (value_between d (sort a) (sort_sorted a)) as Hb.
  pose proof (next_index_lt (sort a)) as Hlt.
  pose proof (previous_index_lt (sort a)) as Hlt'.
  rewrite sort_length in Hb, Hlt, Hlt'.
  destruct (Hb Hn (sort_exact d a Hd) _ Hv0) as [Hlo Hhi].
  specialize (Hlt Hn _ Hv0). specialize (Hlt' Hn _ Hv0).
  split.
  - eapply Qle_trans; [|exact Hlo].
    apply sort_nth_le; lia.
  - eapply Qle_trans; [exact Hhi|].
    apply sort_nth_le; lia.
Qed.

(** The 0-th percentile is the smallest value, the 100-th the largest,
    in every dtype. *)
Lemma percentile_0 (d : DType) (a : list Q) :
  a <> [] -> exists p, percentile d a 0 = Ok p /\ p == nth 0 (sort a) 0.
Proof.
  intros Ha. pose proof (nonempty_length a Ha) as Hn.
  rewrite (percentile_value d a 0) by (auto; lra).
  eexists. split; [reflexivity|].
  assert (virtual_index (length a) 0 == 0) as Hv
    by (unfold virtual_index; field).
  assert (gamma (virtual_index (length a) 0) == 0) as Hg.
  { unfold gamma. rewrite (Qfloor_comp _ _ Hv), Hv. reflexivity. }
  assert (previous_index (length a) (virtual_index (length a) 0) = 0%nat)
    as E.
  { unfold previous_index.
    destruct (Qle_bool _ _) eqn:T.
    - apply Qle_bool_iff in T. rewrite Hv in T.
      assert (inject_Z (Z.of_nat (length a)) <= inject_Z 1) as T'
        by (change (inject_Z 1) with 1; lra).
      rewrite <- Zle_Qle in T'. lia.
    - now rewrite (Qfloor_comp _ _ Hv). }
  rewrite E. now apply lerp_0.
Qed.

Lemma percentile_100 (d : DType) (a : list Q) :
  a <> [] ->
  exists p, percentile d a 100 = Ok p /\
            p == nth (Nat.pred (length a)) (sort a) 0.
Proof.
  intros Ha. pose proof (nonempty_length a Ha) as Hn.
  rewrite (percentile_value d a 100) by (auto; lra).
  eexists. split; [reflexivity|].
  assert (virtual_index (length a) 100 == inject_Z (Z.of_nat (length a)) - 1)
    as Hv by (unfold virtual_index; field).
  destruct (last_indices (length a) (virtual_index (length a) 100))
    as (-> & ->); [rewrite Hv; apply Qle_refl|].
  apply lerp_same.
Qed.


(** *** Ranks by counting

    The value of rank [k] in the specification's sense is the [k]-th
    entry of the sorted array. *)










End PercentileFacts.

(** ** The widget's methods *)

Module WidgetFacts.
Import Np NpFacts PercentileFacts ColorbarWidget.

(** [cb_range] reads the buttons, the spin boxes and the image only. *)
Lemma cb_range_frame (s s' : t) :
  manual s = manual s' -> _image s = _image s' ->
  _min_manual s = _min_manual s' -> _max_manual s = _max_manual s' ->
  _min_percentile s = _min_percentile s' ->
  _max_percentile s = _max_percentile s' ->
  cb_range s = cb_range s'.
Proof.
  intros H1 H2 H3 H4 H5 H6. unfold cb_range.
  now rewrite H1, H2, H3, H4, H5, H6.
Qed.

Lemma get_cb_range_eq (s : t) :
  get_cb_range s = (cb_range s, record GetCbRange s).
Proof.
  unfold get_cb_range, bind, modify, gets, lift. simpl.
  f_equal.
Qed.

(** One update, when the range calculation returns [r]. *)
Lemma update_cb_range_ok (s : t) (r : Q * Q) :
  cb_range s = Ok r ->
  update_cb_range s =
  (Ok tt,
   mk (exclusive s) (manual s) (percentile s)
      (_min_percentile s) (_min_manual s) (_max_percentile s) (_max_manual s)
      (_image s) (redrawn (_cb s) r)
      (trace s ++ update_calls (_image s) r)).
Proof.
  intros Hr. destruct s as [e m p a b c d im cb tr].
  unfold update_cb_range, refresh_image, refresh_colorbar, bind.
  rewrite get_cb_range_eq, Hr. cbn -[ColorBar.refresh_colorbar get_cb_range cb_range].
  rewrite get_cb_range_eq.
  match goal with
  | |- context [cb_range ?x] =>
      change (cb_range x) with (cb_range (mk e m p a b c d im cb tr))
  end.
  rewrite Hr. cbn -[ColorBar.refresh_colorbar get_cb_range cb_range].
  rewrite get_cb_range_eq.
  match goal with
  | |- context [cb_range ?x] =>
      change (cb_range x) with (cb_range (mk e m p a b c d im cb tr))
  end.
  rewrite Hr. cbn -[ColorBar.refresh_colorbar get_cb_range cb_range].
  unfold redrawn, update_calls.
  cbv beta iota delta [modify record with_cb exclusive manual percentile
    _min_percentile _min_manual _max_percentile _max_manual _image _cb trace].
  rewrite <- !app_assoc. reflexivity.
Qed.

(** When the range calculation raises, so does the update, at its first
    call. *)
Lemma update_cb_range_raise (s : t) (e : exn) :
  cb_range s = Raise e ->
  update_cb_range s = (Raise e, record GetCbRange s).
Proof.
  intros Hr.
  unfold update_cb_range, refresh_colorbar, bind.
  rewrite get_cb_range_eq, Hr. reflexivity.
Qed.

Lemma handle_update (ev : Event) (s : t) :
  is_update ev = true -> handle ev s = update_cb_range (setter ev s).
Proof.
  destruct ev; simpl; intros H; try discriminate; reflexivity.
Qed.

Lemma count_nonzero_values (im : option Sample) :
  (image_count_nonzero im <? 1)%nat = false -> image_nonzero im <> [].
Proof.
  destruct im as [a|]; simpl; [|discriminate].
  unfold count_nonzero. intros H E. rewrite E in H. discriminate.
Qed.

(** With both percentiles in [0, 100] the range calculation returns. *)
Lemma cb_range_returns (s : t) :
  percentiles_in_range s -> exists r, cb_range s = Ok r.
Proof.
  intros [[L0 L1] [H0 H1]]. unfold cb_range.
  destruct (manual s || _) eqn:T; [eauto|].
  apply orb_false_iff in T. destruct T as [_ T].
  apply count_nonzero_values in T.
  cbv zeta.
  rewrite (percentile_value _ _ _ T L0 L1), (percentile_value _ _ _ T H0 H1).
  eauto.
Qed.

(** *** Properties kept by every method *)

Lemma preserves_ret (P : t -> Prop) {A} (a : A) : preserves P (ret a).
Proof. intros s H. exact H. Qed.

Lemma preserves_lift (P : t -> Prop) {A} (r : result A) :
  preserves P (lift r).
Proof. intros s H. exact H. Qed.

Lemma preserves_gets (P : t -> Prop) {A} (f : t -> A) :
  preserves P (gets f).
Proof. intros s H. exact H. Qed.

Lemma preserves_modify (P : t -> Prop) (f : t -> t) :
  (forall s, P s -> P (f s)) -> preserves P (modify f).
Proof. intros Hf s H. simpl. auto. Qed.

Lemma preserves_bind (P : t -> Prop) {A B} (m : M A) (k : A -> M B) :
  preserves P m -> (forall a, preserves P (k a)) -> preserves P (bind m k).
Proof.
  intros Hm Hk s H. unfold bind. specialize (Hm s H).
  destruct (m s) as [[a|e] s']; simpl in *; [now apply Hk | exact Hm].
Qed.

Lemma preserves_if (P : t -> Prop) {A} (b : bool) (m1 m2 : M A) :
  preserves P m1 -> preserves P m2 -> preserves P (if b then m1 else m2).
Proof. destruct b; auto. Qed.

(** A property that does not mention the colour bar or the trace, and
    that every setter keeps, is kept by every method. *)
Section Invariant.

Variable P : t -> Prop.
Hypothesis P_closed : setter_closed P.

Lemma inv_get_cb_range : preserves P get_cb_range.
Proof.
  unfold get_cb_range.
  apply preserves_bind; [apply preserves_modify; intros; now apply (closed_record P)|].
  intros _. apply preserves_bind; [apply preserves_gets|].
  intros self. apply preserves_lift.
Qed.

Lemma inv_refresh_colorbar : preserves P refresh_colorbar.
Proof.
  unfold refresh_colorbar.
  apply preserves_bind; [apply inv_get_cb_range|intros r].
  apply preserves_modify. intros s H. now apply (closed_record P), (closed_cb P).
Qed.

Lemma inv_refresh_image : preserves P refresh_image.
Proof.
  unfold refresh_image.
  apply preserves_bind; [apply preserves_gets|intros im].
  apply preserves_bind; [apply inv_get_cb_range|intros r].
  apply preserves_bind; [|intros _; apply inv_refresh_colorbar].
  apply preserves_modify. intros s H. now apply (closed_record P).
Qed.

Lemma inv_update_cb_range : preserves P update_cb_range.
Proof.
  unfold update_cb_range.
  apply preserves_bind; [apply inv_refresh_colorbar|].
  intros _. apply inv_refresh_image.
Qed.

Lemma inv_shortcut_to_cb_manual : preserves P shortcut_to_cb_manual.
Proof.
  unfold shortcut_to_cb_manual, setChecked_manual.
  apply preserves_bind; [|intros _; apply inv_update_cb_range].
  apply preserves_modify. exact (closed_setChecked_manual P P_closed).
Qed.

Lemma inv_shortcut_to_cb_centiles : preserves P shortcut_to_cb_centiles.
Proof.
  unfold shortcut_to_cb_centiles, setChecked_percentile.
  apply preserves_bind; [|intros _; apply inv_update_cb_range].
  apply preserves_modify. exact (closed_setChecked_percentile P P_closed).
Qed.

Lemma inv_valueChanged_min_manual (v : Q) :
  preserves P (valueChanged_min_manual v).
Proof.
  unfold valueChanged_min_manual.
  apply preserves_bind; [|intros _; apply inv_shortcut_to_cb_manual].
  apply preserves_modify. now apply (closed_min_manual P).
Qed.

Lemma inv_valueChanged_max_manual (v : Q) :
  preserves P (valueChanged_max_manual v).
Proof.
  unfold valueChanged_max_manual.
  apply preserves_bind; [|intros _; apply inv_shortcut_to_cb_manual].
  apply preserves_modify. now apply (closed_max_manual P).
Qed.

Lemma inv_valueChanged_min_percentile (v : Q) :
  preserves P (valueChanged_min_percentile (clamp 0 100 v)).
Proof.
  unfold valueChanged_min_percentile.
  apply preserves_bind; [|intros _; apply inv_shortcut_to_cb_centiles].
  apply preserves_modify. now apply (closed_min_percentile P).
Qed.

Lemma inv_valueChanged_max_percentile (v : Q) :
  preserves P (valueChanged_max_percentile (clamp 0 100 v)).
Proof.
  unfold valueChanged_max_percentile.
  apply preserves_bind; [|intros _; apply inv_shortcut_to_cb_centiles].
  apply preserves_modify. now apply (closed_max_percentile P).
Qed.

Lemma inv_set_image (img : Sample) : preserves P (set_image img).
Proof.
  unfold set_image, setValue_min_manual, setValue_max_manual,
    setValue_min_percentile, setValue_max_percentile.
  apply preserves_bind; [apply preserves_modify; now apply (closed_image P)|intros _].
  apply preserves_bind; [apply preserves_lift|intros lo].
  apply preserves_bind.
  { apply preserves_bind; [apply preserves_gets|intros cur].
    apply preserves_if;
      [apply preserves_ret | apply inv_valueChanged_min_manual]. }
  intros _. apply preserves_bind.
  { apply preserves_bind; [apply preserves_gets|intros cur].
    apply preserves_if;
      [apply preserves_ret | apply inv_valueChanged_min_percentile]. }
  intros _. apply preserves_bind; [apply preserves_lift|intros hi].
  apply preserves_bind.
  { apply preserves_bind; [apply preserves_gets|intros cur].
    apply preserves_if;
      [apply preserves_ret | apply inv_valueChanged_max_manual]. }
  intros _. apply preserves_bind.
  { apply preserves_bind; [apply preserves_gets|intros cur].
    apply preserves_if;
      [apply preserves_ret | apply inv_valueChanged_max_percentile]. }
  intros _. apply inv_refresh_colorbar.
Qed.

Lemma inv_handle (ev : Event) : preserves P (handle ev).
Proof.
  destruct ev; cbn [handle].
  - unfold click_manual.
    apply preserves_bind; [|intros _; apply inv_update_cb_range].
    apply preserves_modify. exact (closed_click_manual P P_closed).
  - unfold click_percentile.
    apply preserves_bind; [|intros _; apply inv_update_cb_range].
    apply preserves_modify. exact (closed_click_percentile P P_closed).
  - apply inv_valueChanged_min_manual.
  - apply inv_valueChanged_max_manual.
  - apply inv_valueChanged_min_percentile.
  - apply inv_valueChanged_max_percentile.
  - apply inv_set_image.
  - apply preserves_modify. now apply (closed_image P).
Qed.

Lemma inv_step (s : t) (ev : Event) : P s -> P (step s ev).
Proof. apply inv_handle. Qed.

End Invariant.

(** *** What holds in every reachable state *)

Lemma clamp_in_range (v : Q) : 0 <= clamp 0 100 v /\ clamp 0 100 v <= 100.
Proof.
  unfold clamp.
  destruct (Qle_bool v 0) eqn:A; [split; lra|].
  destruct (Qle_bool 100 v) eqn:B; [split; lra|].
  split.
  - destruct (Qlt_le_dec v 0) as [H|H]; [|exact H].
    apply Qlt_le_weak, Qle_bool_iff in H. congruence.
  - destruct (Qlt_le_dec 100 v) as [H|H]; [|exact H].
    apply Qlt_le_weak, Qle_bool_iff in H. congruence.
Qed.

Lemma percentiles_in_range_closed : setter_closed percentiles_in_range.
Proof.
  split.
  - intros c [] H; exact H.
  - intros cb [] H; exact H.
  - intros im [] H; exact H.
  - intros [[] m0 p0 a b c d im cb tr] H; exact H.
  - intros [[] m0 p0 a b c d im cb tr] H; exact H.
  - intros [] H; exact H.
  - intros [] H; exact H.
  - intros v [] H; exact H.
  - intros v [] H; exact H.
  - intros v [] [H1 H2]. split; [apply clamp_in_range | exact H2].
  - intros v [] [H1 H2]. split; [exact H1 | apply clamp_in_range].
Qed.

Lemma one_checked_closed : setter_closed one_checked.
Proof.
  split.
  - intros c [] H; exact H.
  - intros cb [] H; exact H.
  - intros im [] H; exact H.
  - intros [[] m0 p0 a b c d im cb tr] H E;
      try discriminate E; reflexivity.
  - intros [[] m0 p0 a b c d im cb tr] H E;
      try discriminate E; reflexivity.
  - intros [[] m0 p0 a b c d im cb tr] H E;
      try discriminate E; reflexivity.
  - intros [[] m0 p0 a b c d im cb tr] H E;
      try discriminate E; reflexivity.
  - intros v [] H; exact H.
  - intros v [] H; exact H.
  - intros v [] H; exact H.
  - intros v [] H; exact H.
Qed.

Lemma percentiles_in_range_step (s : t) (ev : Event) :
  percentiles_in_range s -> percentiles_in_range (step s ev).
Proof. apply inv_step, percentiles_in_range_closed. Qed.

Lemma one_checked_step (s : t) (ev : Event) :
  one_checked s -> one_checked (step s ev).
Proof. apply inv_step, one_checked_closed. Qed.

Lemma init_invariants (e m p : bool) (cmap : ColorBar.ColorMap)
      (img : Sample) (s : t) :
  init e m p cmap img = Ok s -> percentiles_in_range s /\ one_checked s.
Proof.
  unfold init.
  destruct (ColorBar.init cmap 100 0 100) as [cb|]; [|discriminate].
  set (s0 := mk e m p 0 0 100 0 None cb []).
  assert (percentiles_in_range s0) as H0.
  { split; split; cbn; lra. }
  unfold bind.
  assert (percentiles_in_range (snd (set_image img s0))) as H1.
  { now apply inv_set_image; [apply percentiles_in_range_closed|]. }
  destruct (set_image img s0) as [[[]|x] s1]; [|discriminate].
  cbn [snd] in H1.
  assert (percentiles_in_range (snd (update_cb_range s1))) as H3.
  { now apply inv_update_cb_range; [apply percentiles_in_range_closed|]. }
  destruct (update_cb_range s1) as [[[]|x] s2]; [|discriminate].
  cbn [snd] in H3. unfold setChecked_percentile, modify.
  intros E. injection E as <-.
  destruct s2 as [e2 m2 p2 a b c d im cb2 tr]. split; [exact H3|].
  intros E. cbn in E. subst e2. reflexivity.
Qed.

Lemma reachable_invariants (s : t) :
  reachable s -> percentiles_in_range s /\ one_checked s.
Proof.
  induction 1 as [e m p cmap img s H|s ev _ [IH1 IH2]].
  - exact (init_invariants _ _ _ _ _ _ H).
  - split; [now apply percentiles_in_range_step | now apply one_checked_step].
Qed.

(** The example widgets are reachable. *)
Lemma reachable_run (s : t) (evs : list Event) :
  reachable s -> reachable (run s evs).
Proof.
  revert s. induction evs as [|ev evs IH]; intros s H; simpl; [exact H|].
  apply IH. now constructor.
Qed.

Lemma built_reachable (e m p : bool) (img : Sample) (evs : list Event) :
  is_ok (init e m p Examples.grey_cmap img) = true ->
  reachable (Examples.built e m p img evs).
Proof.
  unfold Examples.built.
  destruct (init e m p Examples.grey_cmap img) as [s|x] eqn:E;
    [|discriminate].
  intros _. apply reachable_run. econstructor. exact E.
Qed.

End WidgetFacts.

(** ** The range calculation *)

Module RangeCalculation.
Import Np NpFacts PercentileFacts ColorbarWidget WidgetFacts.





Lemma get_cb_range_result (s : t) : fst (get_cb_range s) = cb_range s.
Proof. now rewrite get_cb_range_eq. Qed.





(** An image with nonzero entries can give an inverted range as well,
    when a difference of two pixels leaves the range of its dtype: for the
    signed 8-bit scan holding -100 and 100, the percentiles 25 and 49 give
    -114 and -127.44. *)
Lemma int8_range_not_ordered :
  reachable Examples.int8_quartile_widget /\
  mode Examples.int8_quartile_widget = PERCENTILE /\
  _min_percentile Examples.int8_quartile_widget == 25 /\
  _max_percentile Examples.int8_quartile_widget == 49 /\
  exists r,
    fst (get_cb_range Examples.int8_quartile_widget) = Ok r /\
    fst r == -114 /\ snd r == - (12744 # 100) /\ ~ fst r <= snd r.
Proof.
  split.
  { assert (Examples.built true false true Examples.int8_scan
              [Edit_max_percentile 49; Edit_min_percentile 25]
            = Examples.int8_quartile_widget) as <-
        by (vm_compute; reflexivity).
    apply built_reachable. vm_compute. reflexivity. }
  split; [reflexivity|].
  split; [vm_compute; reflexivity|].
  split; [vm_compute; reflexivity|].
  eexists. split; [vm_compute; reflexivity|].
  split; [vm_compute; reflexivity|].
  split; [vm_compute; reflexivity|].
  intros H. vm_compute in H. now apply H.
Qed.



Lemma filter_perm {A} (f : A -> bool) (l l' : list A) :
  Permutation l l' -> Permutation (filter f l) (filter f l').
Proof.
  induction 1 as [|x l l' _ IH|x y l|l l' l'' _ IH1 _ IH2]; simpl.
  - constructor.
  - destruct (f x); [now constructor | exact IH].
  - destruct (f x), (f y); try reflexivity. apply perm_swap.
  - now transitivity (filter f l').
Qed.

(** The first and the last order statistic are the least and the greatest
    value. *)
Lemma sorted_extremes (l : list Q) (lo hi : Q) :
  In lo l -> In hi l ->
  (forall x, In x l -> lo <= x /\ x <= hi) ->
  nth 0 (sort l) 0 == lo /\ nth (Nat.pred (length l)) (sort l) 0 == hi.
Proof.
  intros Hlo Hhi Hb.
  assert (1 <= length l)%nat as Hn by (destruct l; simpl in *; [tauto|lia]).
  pose proof (sort_perm l) as Hperm.
  assert (forall i, (i < length l)%nat -> In (nth i (sort l) 0) l) as Hin.
  { intros i Hi. apply (Permutation_in _ (Permutation_sym Hperm)).
    apply nth_In. now rewrite sort_length. }
  assert (forall x, In x l ->
            exists j, (j < length l)%nat /\ nth j (sort l) 0 = x) as Hnth.
  { intros x Hx. apply (Permutation_in _ Hperm) in Hx.
    destruct (In_nth _ _ 0 Hx) as (j & Hj & E).
    rewrite sort_length in Hj. eauto. }
  split; apply Qle_antisym.
  - destruct (Hnth lo Hlo) as (j & Hj & <-). apply sort_nth_le; lia.
  - apply Hb, Hin. lia.
  - apply Hb, Hin. lia.
  - destruct (Hnth hi Hhi) as (j & Hj & <-). apply sort_nth_le; lia.
Qed.

Lemma one_to_forty_bounds (x : Q) :
  In x Examples.one_to_forty -> 1 <= x /\ x <= 40.
Proof.
  unfold Examples.one_to_forty. rewrite in_map_iff.
  intros (k & <- & Hk). apply in_seq in Hk.
  change 1 with (inject_Z 1). change 40 with (inject_Z 40).
  rewrite <- !Zle_Qle. lia.
Qed.

(** C9.  For every image whose cells are, in whatever arrangement, 60
    zeros and the integers 1 .. 40 (so in particular for the 10 x 10 grid
    of the scenario), [get_cb_range] in PERCENTILE mode with percentiles 0
    and 100 returns the range (1, 40). *)
Theorem grid_percentile_range (s : t) (img : Sample)
        (Himg : _image s = Some img)
        (Hcells : Permutation (ravel img)
                              (Examples.one_to_forty ++ repeat 0 60))
        (Hmode : mode s = PERCENTILE)
        (Hlow : _min_percentile s = 0)
        (Hhigh : _max_percentile s = 100) :
  exists r, fst (get_cb_range s) = Ok r /\ fst r == 1 /\ snd r == 40.
Proof.
  rewrite get_cb_range_result. unfold cb_range.
  unfold mode in Hmode. destruct (manual s); [discriminate|].
  rewrite Himg, Hlow, Hhigh. simpl.
  assert (Permutation (nonzero_values img) Examples.one_to_forty) as Hnz.
  { unfold nonzero_values.
    rewrite (filter_perm is_nonzero _ _ Hcells). vm_compute. reflexivity. }
  unfold count_nonzero. rewrite (Permutation_length Hnz).
  change (length Examples.one_to_forty <? 1)%nat with false. cbv iota.
  assert (nonzero_values img <> []) as Hne.
  { intros E. rewrite E in Hnz. apply Permutation_length in Hnz.
    discriminate Hnz. }
  destruct (sorted_extremes (nonzero_values img) 1 40) as [Emin Emax].
  - apply (Permutation_in _ (Permutation_sym Hnz)). simpl. now left.
  - apply (Permutation_in _ (Permutation_sym Hnz)).
    unfold Examples.one_to_forty. apply in_map_iff.
    exists 40%nat. split; [reflexivity | apply in_seq; lia].
  - intros x Hx. apply one_to_forty_bounds.
    exact (Permutation_in _ Hnz Hx).
  - destruct (percentile_0 (dtype img) _ Hne) as (p1 & -> & E1).
    destruct (percentile_100 (dtype img) _ Hne) as (p2 & -> & E2).
    exists (p1, p2). split; [reflexivity|]. simpl.
    rewrite E1, E2, Emin, Emax. split; reflexivity.
Qed.

(** Two lists with the same sorted form are permutations of each other. *)
Lemma perm_of_sort (l l' : list Q) : sort l = sort l' -> Permutation l l'.
Proof.
  intros E. transitivity (sort l); [apply sort_perm|].
  rewrite E. symmetry. apply sort_perm.
Qed.

Lemma grid_percentile_range_witness :
  _image Examples.grid_widget = Some Examples.grid_10x10 /\
  Permutation (ravel Examples.grid_10x10)
              (Examples.one_to_forty ++ repeat 0 60) /\
  mode Examples.grid_widget = PERCENTILE /\
  _min_percentile Examples.grid_widget = 0 /\
  _max_percentile Examples.grid_widget = 100 /\
  exists r,
    fst (get_cb_range Examples.grid_widget) = Ok r /\
    fst r == 1 /\ snd r == 40.
Proof.
  assert (Permutation (ravel Examples.grid_10x10)
                      (Examples.one_to_forty ++ repeat 0 60)) as Hperm.
  { apply perm_of_sort. vm_compute. reflexivity. }
  split; [reflexivity|]. split; [exact Hperm|].
  split; [reflexivity|]. split; [reflexivity|]. split; [reflexivity|].
  exact (grid_percentile_range Examples.grid_widget Examples.grid_10x10
           eq_refl Hperm eq_refl eq_refl eq_refl).
Defined.

(** C10.  When both buttons are checked, [get_cb_range] returns the
    manual bounds whatever the image: the test of the "manual" button comes
    first and the "percentile" button is never read.  With buttons that
    do not form an exclusive group, the slot for an edited percentile
    checks "percentile" and leaves "manual" checked (and the slot for an
    edited manual bound does the converse), so the range stays the manual
    one. *)
Theorem manual_takes_precedence (s : t)
        (Hm : manual s = true) (Hc : percentile s = true) :
  fst (get_cb_range s) = Ok (_min_manual s, _max_manual s) /\
  (exclusive s = false ->
   manual (snd (shortcut_to_cb_centiles s)) = true /\
   percentile (snd (shortcut_to_cb_centiles s)) = true /\
   manual (snd (shortcut_to_cb_manual s)) = true /\
   percentile (snd (shortcut_to_cb_manual s)) = true /\
   fst (get_cb_range (snd (shortcut_to_cb_centiles s)))
     = Ok (_min_manual s, _max_manual s)).
Proof.
  assert (cb_range s = Ok (_min_manual s, _max_manual s)) as Hr.
  { unfold cb_range. now rewrite Hm. }
  split; [now rewrite get_cb_range_result|].
  intros He.
  unfold shortcut_to_cb_centiles, shortcut_to_cb_manual,
    setChecked_percentile, setChecked_manual, bind, modify.
  rewrite He.
  destruct s as [e m p a b c d im cb tr]. simpl in Hm, Hc, Hr |- *.
  subst m p.
  erewrite !update_cb_range_ok by exact Hr.
  cbn [snd manual percentile]. repeat split; reflexivity.
Qed.

Lemma manual_takes_precedence_witness :
  manual Examples.both_checked_widget = true /\
  percentile Examples.both_checked_widget = true /\
  exclusive Examples.both_checked_widget = false /\
  fst (get_cb_range Examples.both_checked_widget) = Ok (0, 40) /\
  manual (snd (shortcut_to_cb_centiles Examples.both_checked_widget)) = true.
Proof.
  destruct (manual_takes_precedence Examples.both_checked_widget
              eq_refl eq_refl) as [H1 H2].
  split; [reflexivity|]. split; [reflexivity|]. split; [reflexivity|].
  split; [exact H1|]. exact (proj1 (H2 eq_refl)).
Defined.

End RangeCalculation.

(** ** The legend *)

Module Legend.
Import Np Qt ColorBar.

Lemma fold_min_same (p x : Q) (l : list Q) :
  x == p -> (forall y, In y l -> y == p) -> fold_left Qmin l x == p.
Proof.
  revert x. induction l as [|y l IH]; intros x Hx Hl; simpl; [exact Hx|].
  apply IH.
  - rewrite Hx, (Hl y) by now left. apply Q.min_id.
  - intros z Hz. apply Hl. now right.
Qed.

Lemma fold_max_same (p x : Q) (l : list Q) :
  x == p -> (forall y, In y l -> y == p) -> fold_left Qmax l x == p.
Proof.
  revert x. induction l as [|y l IH]; intros x Hx Hl; simpl; [exact Hx|].
  apply IH.
  - rewrite Hx, (Hl y) by now left. apply Q.max_id.
  - intros z Hz. apply Hl. now right.
Qed.

(** C3, as stated, fails: for the colour map whose two stops are both at
    position 1/2 the constructor returns a colour bar; its rescaled stop
    positions are NaN. *)
Lemma collapsed_stops_no_error :
  exists cb,
    init Examples.collapsed_cmap 100 0 100 = Ok cb /\
    stops cb = [NaN; NaN].
Proof.
  eexists. split; vm_compute; reflexivity.
Qed.

(** C3, amended.  For every non-empty list of stops that all have the same
    position, the construction of the colour bar does not fail: the
    rescaling divides 0 by 0 in every component, which in numpy yields NaN
    without raising, and the colour bar is built with NaN as every stop
    position. *)
Theorem collapsed_stops_nan (cmap : ColorMap) (w cb_min cb_max p : Q)
        (Hne : pos cmap <> [])
        (Hsame : forall x, In x (pos cmap) -> x == p) :
  exists cb,
    init cmap w cb_min cb_max = Ok cb /\
    length (stops cb) = length (pos cmap) /\
    Forall (fun s => s = NaN) (stops cb).
Proof.
  unfold init, getStops, rescale.
  destruct (pos cmap) as [|x l] eqn:E; [contradiction|].
  cbn [amin amax].
  set (lo := fold_left Qmin l x). set (hi := fold_left Qmax l x).
  assert (lo == p) as Hlo.
  { apply fold_min_same; [apply Hsame; now left|].
    intros y Hy. apply Hsame. now right. }
  assert (hi == p) as Hhi.
  { apply fold_max_same; [apply Hsame; now left|].
    intros y Hy. apply Hsame. now right. }
  eexists. split; [reflexivity|]. cbn [stops refresh_colorbar].
  split; [apply length_map|].
  apply Forall_forall. intros s Hs. apply in_map_iff in Hs.
  destruct Hs as (y & <- & Hy). unfold divide.
  assert (hi - lo == 0) as -> by (rewrite Hlo, Hhi; ring).
  assert (y - lo == 0) as -> by (rewrite Hlo, (Hsame y Hy); ring).
  reflexivity.
Qed.

Lemma collapsed_stops_nan_witness :
  pos Examples.collapsed_cmap <> [] /\
  (forall x, In x (pos Examples.collapsed_cmap) -> x == 1 # 2) /\
  exists cb,
    init Examples.collapsed_cmap 100 0 100 = Ok cb /\
    length (stops cb) = length (pos Examples.collapsed_cmap) /\
    Forall (fun s => s = NaN) (stops cb).
Proof.
  assert (pos Examples.collapsed_cmap <> []) as Hne by discriminate.
  assert (forall x, In x (pos Examples.collapsed_cmap) -> x == 1 # 2)
    as Hsame.
  { simpl. intros x [<-|[<-|[]]]; reflexivity. }
  split; [exact Hne|]. split; [exact Hsame|].
  exact (collapsed_stops_nan Examples.collapsed_cmap 100 0 100 (1 # 2)
           Hne Hsame).
Defined.

Lemma between_comp (a a' b b' v : Q) :
  a == a' -> b == b' -> between a b v = between a' b' v.
Proof.
  intros Ea Eb. unfold between.
  rewrite (Qleb_comp _ _ (Q.min_compat _ _ Ea _ _ Eb) _ _ (Qeq_refl v)).
  rewrite (Qleb_comp _ _ (Qeq_refl v) _ _ (Q.max_compat _ _ Ea _ _ Eb)).
  reflexivity.
Qed.

(** The points of a rectangle of height zero all lie on its outline:
    they form the segment from one lower corner to the other. *)
Lemma flat_rect_outline (x0 y0 w h x y : Q) :
  h == 0 ->
  on_outline (mkQRectF x0 y0 w h) x y
  = between x0 (x0 + w) x && Qeq_bool y y0.
Proof.
  intros Hh. unfold on_outline, covers, between. cbn [rx ry rw rh].
  assert (y0 + h == y0) as E by lra.
  rewrite (Qleb_comp _ _ (Q.min_compat _ _ (Qeq_refl y0) _ _ E)
                     _ _ (Qeq_refl y)).
  rewrite (Qleb_comp _ _ (Qeq_refl y)
                     _ _ (Q.max_compat _ _ (Qeq_refl y0) _ _ E)).
  destruct (Qle_bool (Qmin x0 (x0 + w)) x && Qle_bool x (Qmax x0 (x0 + w)));
    [|reflexivity].
  cbn [andb].
  destruct (Qeq_bool y y0) eqn:Ey.
  - apply Qeq_bool_iff in Ey.
    assert (Qle_bool (Qmin y0 y0) y = true) as ->.
    { apply Qle_bool_iff. rewrite Q.min_id, Ey. apply Qle_refl. }
    assert (Qle_bool y (Qmax y0 y0) = true) as ->.
    { apply Qle_bool_iff. rewrite Q.max_id, Ey. apply Qle_refl. }
    now rewrite !orb_true_r.
  - destruct (Qle_bool (Qmin y0 y0) y) eqn:A; [|reflexivity].
    destruct (Qle_bool y (Qmax y0 y0)) eqn:B; [|reflexivity].
    apply Qle_bool_iff in A, B. rewrite Q.min_id in A. rewrite Q.max_id in B.
    assert (y == y0) as C by lra.
    apply Qeq_bool_iff in C. congruence.
Qed.

Lemma flat_rect_covers (x0 y0 w h x y : Q) :
  h == 0 ->
  covers (mkQRectF x0 y0 w h) x y = on_outline (mkQRectF x0 y0 w h) x y.
Proof.
  intros Hh. rewrite (flat_rect_outline _ _ _ _ _ _ Hh).
  unfold on_outline, covers, between. cbn [rx ry rw rh].
  assert (y0 + h == y0) as E by lra.
  rewrite (Qleb_comp _ _ (Q.min_compat _ _ (Qeq_refl y0) _ _ E)
                     _ _ (Qeq_refl y)).
  rewrite (Qleb_comp _ _ (Qeq_refl y)
                     _ _ (Q.max_compat _ _ (Qeq_refl y0) _ _ E)).
  f_equal.
  destruct (Qeq_bool y y0) eqn:Ey.
  - apply Qeq_bool_iff in Ey. apply andb_true_iff.
    split; apply Qle_bool_iff.
    + rewrite Q.min_id, Ey. apply Qle_refl.
    + rewrite Q.max_id, Ey. apply Qle_refl.
  - destruct (Qle_bool (Qmin y0 y0) y) eqn:A; [|reflexivity].
    destruct (Qle_bool y (Qmax y0 y0)) eqn:B; [|reflexivity].
    apply Qle_bool_iff in A, B. rewrite Q.min_id in A. rewrite Q.max_id in B.
    assert (y == y0) as C by lra.
    apply Qeq_bool_iff in C. congruence.
Qed.

(** C4, as stated, fails: redrawing the widget's colour bar for the range
    (5, 5) does not raise, but the rectangle it draws has height
    5 - 5 = 0.  Whatever the bounding rectangle of the picture was, the
    point (50, 5) of that rectangle is stroked with the black pen, not
    with the white of the stop at position 1.0, and the point (50, 6) is
    never filled; with an empty bounding rectangle (50, 6) receives no
    paint at all. *)
Lemma flat_range_not_uniform :
  exists g r,
    pic (refresh_colorbar Examples.grey_bar 5 5 None None)
      = [DrawBoundingRect; SetPen Black; SetBrush g; DrawRect r] /\
    rh r == 0 /\
    In (Fin 0, mkQColor 255 255 255 255) (color_stops g) /\
    pen_rgba Black <> mkQColor 255 255 255 255 /\
    (forall brect,
       paint_at brect (pic (refresh_colorbar Examples.grey_bar 5 5 None None))
                50 5 = Some (Stroke Black)) /\
    (forall brect g',
       paint_at brect (pic (refresh_colorbar Examples.grey_bar 5 5 None None))
                50 6 <> Some (Fill g')) /\
    paint_at (mkQRectF 0 0 0 0)
             (pic (refresh_colorbar Examples.grey_bar 5 5 None None))
             50 6 = None.
Proof.
  do 2 eexists. split; [reflexivity|].
  split; [vm_compute; reflexivity|].
  split; [vm_compute; right; right; left; reflexivity|].
  split; [discriminate|].
  split; [|split].
  - intros brect. unfold paint_at. cbn [refresh_colorbar pic play].
    unfold draw at 1.
    assert (on_outline
              (mkQRectF 0 5 (width Examples.grey_bar) (5 - 5)) 50 5 = true)
      as -> by (vm_compute; reflexivity).
    reflexivity.
  - intros brect g'. unfold paint_at. cbn [refresh_colorbar pic play].
    unfold draw.
    assert (on_outline
              (mkQRectF 0 5 (width Examples.grey_bar) (5 - 5)) 50 6 = false)
      as -> by (vm_compute; reflexivity).
    assert (covers
              (mkQRectF 0 5 (width Examples.grey_bar) (5 - 5)) 50 6 = false)
      as -> by (vm_compute; reflexivity).
    destruct (on_outline brect 50 6); [discriminate|].
    destruct (covers brect 50 6); discriminate.
  - vm_compute. reflexivity.
Qed.

(** C4, amended.  With min = max the redraw of the legend neither divides
    by the range nor fails (the only division is [width / 2]); it records
    a gradient whose start and final point coincide and which holds, at its
    own position 0, the colour of every stop whose rescaled position is
    1.0.  Drawn in place, the rectangle is
    [QRectF(0, min, width, max - min)], of height zero: the black pen
    strokes the segment from (0, min) to (width, min), and apart from that
    segment and the outline of the bounding rectangle drawn first, no
    point receives paint; nothing is filled with the gradient.  Drawn
    into an explicitly given rectangle, the outline of that rectangle is
    stroked in black and its interior is filled with the degenerate
    gradient. *)
Theorem flat_range_redraw (self : t) (m : Q) (width_arg : option Q)
        (brect : QRectF) :
  exists g w,
    w = match width_arg with None => width self | Some w => w end /\
    x_start g = x_final g /\ y_start g = y_final g /\
    (forall p1 c, In (Fin p1, c) (combine (stops self) (colors self)) ->
                  p1 == 1 ->
                  exists p0, In (Fin p0, to_QColor c) (color_stops g) /\
                             p0 == 0) /\
    pic (refresh_colorbar self m m width_arg None)
      = [DrawBoundingRect; SetPen Black; SetBrush g;
         DrawRect (mkQRectF 0 m w (m - m))] /\
    (forall x y,
       paint_at brect (pic (refresh_colorbar self m m width_arg None)) x y
       = if (between 0 w x && Qeq_bool y m) || on_outline brect x y
         then Some (Stroke Black) else None) /\
    (forall place x y,
       paint_at brect
                (pic (refresh_colorbar self m m width_arg (Some place))) x y
       = if on_outline (mkQRectF (xMin place) (yMin place) w (height place))
                       x y
         then Some (Stroke Black)
         else if covers (mkQRectF (xMin place) (yMin place) w (height place))
                        x y
              then Some (Fill g)
              else if on_outline brect x y then Some (Stroke Black)
                   else None).
Proof.
  set (w := match width_arg with None => width self | Some w => w end).
  exists (gradient self w m m), w.
  split; [reflexivity|].
  split; [reflexivity|]. split; [reflexivity|]. split.
  { intros p1 c Hin Hp. exists (1 - p1). split; [|rewrite Hp; ring].
    unfold gradient. cbn [color_stops]. apply in_map_iff.
    exists (Fin p1, c). split; [reflexivity | exact Hin]. }
  split; [reflexivity|]. split.
  - intros x y. unfold paint_at. cbn [refresh_colorbar pic play].
    fold w. unfold draw.
    assert (m - m == 0) as Hh by ring.
    rewrite (flat_rect_covers 0 m w (m - m) x y Hh).
    rewrite (flat_rect_outline 0 m w (m - m) x y Hh).
    rewrite (between_comp 0 0 (0 + w) w x (Qeq_refl 0) (Qplus_0_l w)).
    destruct (between 0 w x && Qeq_bool y m); [reflexivity|].
    cbn [orb]. destruct (on_outline brect x y); [reflexivity|].
    destruct (covers brect x y); reflexivity.
  - intros place x y. unfold paint_at. cbn [refresh_colorbar pic play].
    fold w. unfold draw.
    destruct (on_outline _ x y); [reflexivity|].
    destruct (covers _ x y); [reflexivity|].
    destruct (on_outline brect x y); [reflexivity|].
    destruct (covers brect x y); reflexivity.
Qed.

End Legend.

(** ** The controller *)

Module Controller.
Import Np ColorbarWidget WidgetFacts.

Lemma skipn_app_exact {A} (l k : list A) : skipn (length l) (l ++ k) = k.
Proof. induction l as [|x l IH]; simpl; [reflexivity | exact IH]. Qed.

(** An update changes the colour bar and the trace, nothing else. *)
Lemma update_cb_range_settings (s : t) :
  settings (snd (update_cb_range s)) = settings s /\
  exclusive (snd (update_cb_range s)) = exclusive s /\
  _image (snd (update_cb_range s)) = _image s.
Proof.
  destruct (cb_range s) as [r|e] eqn:E.
  - rewrite (update_cb_range_ok s r E). repeat split.
  - rewrite (update_cb_range_raise s e E). destruct s. repeat split.
Qed.

(** What precedes the update leaves image, colour bar and trace alone. *)
Lemma setter_frame (ev : Event) (s : t) :
  exclusive (setter ev s) = exclusive s /\
  _image (setter ev s) = _image s /\
  _cb (setter ev s) = _cb s /\
  trace (setter ev s) = trace s.
Proof.
  destruct s as [[] m p a b c d im cb tr]; destruct ev; repeat split.
Qed.

Lemma setter_in_range (ev : Event) (s : t) :
  percentiles_in_range s -> percentiles_in_range (setter ev s).
Proof.
  intros H. pose proof percentiles_in_range_closed as C.
  destruct ev; cbn [setter].
  - now apply (closed_click_manual _ C).
  - now apply (closed_click_percentile _ C).
  - now apply (closed_setChecked_manual _ C), (closed_min_manual _ C).
  - now apply (closed_setChecked_manual _ C), (closed_max_manual _ C).
  - now apply (closed_setChecked_percentile _ C), (closed_min_percentile _ C).
  - now apply (closed_setChecked_percentile _ C), (closed_max_percentile _ C).
  - exact H.
  - exact H.
Qed.

(** Handling an update event in a widget whose range calculation
    returns. *)
Lemma handle_update_ok (ev : Event) (s : t) (r : Q * Q) :
  is_update ev = true -> cb_range (setter ev s) = Ok r ->
  fst (handle ev s) = Ok tt /\
  calls_during s ev = update_calls (_image s) r /\
  _cb (step s ev) = redrawn (_cb s) r /\
  settings (step s ev) = settings (setter ev s) /\
  _image (step s ev) = _image s.
Proof.
  intros Hev Hr. unfold calls_during, step.
  rewrite (handle_update ev s Hev), (update_cb_range_ok _ r Hr).
  destruct (setter_frame ev s) as (_ & Him & Hcb & Htr).
  cbn [fst snd trace _cb _image]. rewrite Him, Hcb, Htr, skipn_app_exact.
  repeat split.
Qed.

Lemma grid_widget_reachable : reachable Examples.grid_widget.
Proof.
  assert (Examples.built true false true Examples.grid_10x10 []
          = Examples.grid_widget) as <- by (vm_compute; reflexivity).
  apply built_reachable. vm_compute. reflexivity.
Qed.

(** C1, as stated, fails: while the widget built for the 10 x 10 scan
    handles a click on "manual", the range is computed three times, not
    once: by [refresh_colorbar], by [refresh_image] and by the
    [refresh_colorbar] that [refresh_image] calls. *)
Lemma range_computed_three_times :
  range_computations (calls_during Examples.grid_widget Click_manual)
    = 3%nat /\
  range_computations (calls_during Examples.grid_widget Click_manual)
    <> 1%nat.
Proof.
  assert (range_computations
            (calls_during Examples.grid_widget Click_manual) = 3%nat) as E
    by (vm_compute; reflexivity).
  split; [exact E|]. rewrite E. discriminate.
Qed.

(** C1, amended.  For every controller update (mode toggle or field edit)
    in a reachable widget, the handler returns, and the (min, max) pairs
    handed to the legend and to the image as display levels are one and
    the same value [(a, b)].  The value is not computed once: each of the
    three calls (legend, image, legend again) calls [get_cb_range] itself;
    they agree because the three calls read the same buttons, spin boxes
    and image. *)
Theorem update_applies_one_range (s : t) (ev : Event)
        (Hs : reachable s) (Hev : is_update ev = true) :
  exists a b,
    fst (handle ev s) = Ok tt /\
    cb_range (setter ev s) = Ok (a, b) /\
    legend_ranges (calls_during s ev) = [(a, b); (a, b)] /\
    image_levels (calls_during s ev) = [(a, b)] /\
    range_computations (calls_during s ev) = 3%nat.
Proof.
  destruct (reachable_invariants s Hs) as [Hp _].
  destruct (cb_range_returns _ (setter_in_range ev s Hp)) as ([a b] & Hr).
  destruct (handle_update_ok ev s (a, b) Hev Hr) as (H1 & H2 & _).
  exists a, b. rewrite H2. repeat split; assumption.
Qed.

Lemma update_applies_one_range_witness :
  reachable Examples.grid_widget /\
  is_update Click_manual = true /\
  exists a b,
    fst (handle Click_manual Examples.grid_widget) = Ok tt /\
    cb_range (setter Click_manual Examples.grid_widget) = Ok (a, b) /\
    legend_ranges (calls_during Examples.grid_widget Click_manual)
      = [(a, b); (a, b)] /\
    image_levels (calls_during Examples.grid_widget Click_manual)
      = [(a, b)] /\
    range_computations (calls_during Examples.grid_widget Click_manual)
      = 3%nat.
Proof.
  split; [exact grid_widget_reachable|]. split; [reflexivity|].
  exact (update_applies_one_range Examples.grid_widget Click_manual
           grid_widget_reachable eq_refl).
Defined.

(** The state after an update event shows the settings its setter made. *)
Lemma step_settings (ev : Event) (s : t) :
  is_update ev = true -> settings (step s ev) = settings (setter ev s).
Proof.
  intros Hev. unfold step. rewrite (handle_update ev s Hev).
  apply update_cb_range_settings.
Qed.

Lemma in_mode_settings (md : RangeMode) (s s' : t) :
  settings s = settings s' -> in_mode md s' -> in_mode md s.
Proof.
  unfold settings, in_mode, mode. intros E. injection E as -> -> _ _ _ _.
  auto.
Qed.

(** The slots that run when a spin box has taken a new value. *)
Lemma handle_edit :
  (forall v, valueChanged_min_manual v = handle (Edit_min_manual v)) /\
  (forall v, valueChanged_max_manual v = handle (Edit_max_manual v)) /\
  (forall v, valueChanged_min_percentile (clamp 0 100 v)
             = handle (Edit_min_percentile v)) /\
  (forall v, valueChanged_max_percentile (clamp 0 100 v)
             = handle (Edit_max_percentile v)).
Proof.
  refine (conj _ (conj _ (conj _ _))); intros v; cbn [handle]; reflexivity.
Qed.

(** [setValue] on a spin box: nothing when the box already holds the
    value, otherwise the slot of the box runs on the new value. *)
Lemma setValue_cases (s : t) :
  (forall v, setValue_min_manual v s
             = if Qeq_bool v (_min_manual s) then (Ok tt, s)
               else handle (Edit_min_manual v) s) /\
  (forall v, setValue_max_manual v s
             = if Qeq_bool v (_max_manual s) then (Ok tt, s)
               else handle (Edit_max_manual v) s) /\
  (forall v, setValue_min_percentile v s
             = if Qeq_bool (clamp 0 100 v) (_min_percentile s) then (Ok tt, s)
               else handle (Edit_min_percentile v) s) /\
  (forall v, setValue_max_percentile v s
             = if Qeq_bool (clamp 0 100 v) (_max_percentile s) then (Ok tt, s)
               else handle (Edit_max_percentile v) s).
Proof.
  destruct handle_edit as (E1 & E2 & E3 & E4).
  refine (conj _ (conj _ (conj _ _))); intros v.
  - unfold setValue_min_manual, bind, gets.
    destruct (Qeq_bool v (_min_manual s)); [reflexivity|].
    now rewrite E1.
  - unfold setValue_max_manual, bind, gets.
    destruct (Qeq_bool v (_max_manual s)); [reflexivity|].
    now rewrite E2.
  - unfold setValue_min_percentile, bind, gets. cbv zeta.
    destruct (Qeq_bool (clamp 0 100 v) (_min_percentile s)); [reflexivity|].
    now rewrite E3.
  - unfold setValue_max_percentile, bind, gets. cbv zeta.
    destruct (Qeq_bool (clamp 0 100 v) (_max_percentile s)); [reflexivity|].
    now rewrite E4.
Qed.

Lemma both_checked_widget_reachable : reachable Examples.both_checked_widget.
Proof.
  assert (Examples.built false true false Examples.grid_10x10 []
          = Examples.both_checked_widget) as <- by (vm_compute; reflexivity).
  apply built_reachable. vm_compute. reflexivity.
Qed.

(** C6, as stated, fails.  Built from a .ui file whose buttons are not
    an exclusive group and of which "manual" starts checked, the widget has
    both buttons checked, and editing the lower percentile to 10 leaves the
    range calculation in MANUAL mode.  And in the widget built with
    exclusive buttons for the 10 x 10 scan, which is in PERCENTILE mode and
    holds 0 as manual minimum, entering 0 in that box emits no signal:
    the widget stays as it is, in PERCENTILE mode. *)
Lemma mode_rule_exceptions :
  (reachable Examples.both_checked_widget /\
   manual Examples.both_checked_widget = true /\
   percentile Examples.both_checked_widget = true /\
   ~ (in_mode MANUAL Examples.both_checked_widget \/
      in_mode PERCENTILE Examples.both_checked_widget) /\
   mode (snd (setValue_min_percentile 10 Examples.both_checked_widget))
     = MANUAL) /\
  (reachable Examples.grid_widget /\
   exclusive Examples.grid_widget = true /\
   in_mode PERCENTILE Examples.grid_widget /\
   _min_manual Examples.grid_widget = 0 /\
   setValue_min_manual 0 Examples.grid_widget
     = (Ok tt, Examples.grid_widget) /\
   ~ in_mode MANUAL (snd (setValue_min_manual 0 Examples.grid_widget))).
Proof.
  split.
  - split; [exact both_checked_widget_reachable|].
    split; [reflexivity|]. split; [reflexivity|].
    split; [|vm_compute; reflexivity].
    intros [[_ H]|[H _]]; vm_compute in H; discriminate H.
  - split; [exact grid_widget_reachable|].
    split; [reflexivity|]. split; [split; reflexivity|].
    split; [reflexivity|].
    assert (setValue_min_manual 0 Examples.grid_widget
            = (Ok tt, Examples.grid_widget)) as E
      by (vm_compute; reflexivity).
    split; [exact E|]. rewrite E. cbn [snd].
    intros [H _]. vm_compute in H. discriminate H.
Qed.

(** C6, amended.  With the two buttons forming an exclusive group, every
    reachable widget displays exactly one mode, and the transitions follow
    the rule: giving the manual minimum or maximum a value other than the
    one the box holds leads to MANUAL; giving the lower or upper percentile
    a value that, brought into [0, 100], is other than the one the box
    holds leads to PERCENTILE; entering the value a box already holds
    leaves the widget, and with it the mode, as it is; and a click on a
    button leads to the mode of that button. *)
Theorem mode_transitions (s : t)
        (Hs : reachable s) (He : exclusive s = true) :
  (in_mode MANUAL s \/ in_mode PERCENTILE s) /\
  ~ (in_mode MANUAL s /\ in_mode PERCENTILE s) /\
  (forall v,
     edit_rule MANUAL v (_min_manual s) s (snd (setValue_min_manual v s))) /\
  (forall v,
     edit_rule MANUAL v (_max_manual s) s (snd (setValue_max_manual v s))) /\
  (forall v,
     edit_rule PERCENTILE (clamp 0 100 v) (_min_percentile s) s
               (snd (setValue_min_percentile v s))) /\
  (forall v,
     edit_rule PERCENTILE (clamp 0 100 v) (_max_percentile s) s
               (snd (setValue_max_percentile v s))) /\
  in_mode MANUAL (step s Click_manual) /\
  in_mode PERCENTILE (step s Click_percentile).
Proof.
  destruct (reachable_invariants s Hs) as [_ Hone].
  specialize (Hone He).
  assert (forall ev md, is_update ev = true ->
            in_mode md (setter ev s) -> in_mode md (step s ev)) as Hstep.
  { intros ev md Hev. apply in_mode_settings. now apply step_settings. }
  destruct (setValue_cases s) as (E1 & E2 & E3 & E4).
  assert (forall md v cur (r : result unit * t) ev,
            is_update ev = true -> in_mode md (setter ev s) ->
            r = (if Qeq_bool v cur then (Ok tt, s) else handle ev s) ->
            edit_rule md v cur s (snd r)) as Hedit.
  { intros md v cur r ev Hev Hmd ->. unfold edit_rule.
    destruct (Qeq_bool v cur) eqn:E.
    - apply Qeq_bool_iff in E. split; [reflexivity | intros N; contradiction].
    - split.
      + intros C. apply Qeq_bool_iff in C. congruence.
      + intros _. now apply Hstep. }
  destruct s as [e m p a b c d im cb tr]. cbn in He, Hone. subst e.
  split; [|split].
  - unfold in_mode, mode. cbn. destruct m, p; try discriminate Hone; auto.
  - unfold in_mode, mode. cbn. intros [[A _] [B _]].
    destruct m; discriminate.
  - refine (conj _ (conj _ (conj _ (conj _ (conj _ _))))).
    + intros v. apply (Hedit _ _ _ _ (Edit_min_manual v));
        [reflexivity | split; reflexivity | apply E1].
    + intros v. apply (Hedit _ _ _ _ (Edit_max_manual v));
        [reflexivity | split; reflexivity | apply E2].
    + intros v. apply (Hedit _ _ _ _ (Edit_min_percentile v));
        [reflexivity | split; reflexivity | apply E3].
    + intros v. apply (Hedit _ _ _ _ (Edit_max_percentile v));
        [reflexivity | split; reflexivity | apply E4].
    + apply Hstep; [reflexivity | split; reflexivity].
    + apply Hstep; [reflexivity | split; reflexivity].
Qed.

Lemma mode_transitions_witness :
  reachable Examples.grid_widget /\
  exclusive Examples.grid_widget = true /\
  in_mode PERCENTILE Examples.grid_widget /\
  ~ 3 == _min_manual Examples.grid_widget /\
  in_mode MANUAL (snd (setValue_min_manual 3 Examples.grid_widget)).
Proof.
  pose proof (mode_transitions Examples.grid_widget
                grid_widget_reachable eq_refl) as (_ & _ & H & _).
  assert (~ 3 == _min_manual Examples.grid_widget) as N.
  { intros C. vm_compute in C. discriminate C. }
  split; [exact grid_widget_reachable|]. split; [reflexivity|].
  split; [split; reflexivity|]. split; [exact N|].
  exact (proj2 (H 3) N).
Defined.

Lemma idle_widget_reachable : reachable Examples.idle_widget.
Proof.
  assert (Examples.built true false true Examples.zero_image
            [Image_data None]
          = Examples.idle_widget) as <- by (vm_compute; reflexivity).
  apply built_reachable. vm_compute. reflexivity.
Qed.

(** C8, as stated, fails: in the reachable widget whose image item has
    been cleared, an edit of the manual maximum to 50 computes the range
    three times, hands the new levels (0, 50) to the image item and
    replaces the legend by a different picture. *)
Lemma absent_sample_edit_not_idle :
  reachable Examples.idle_widget /\
  _image Examples.idle_widget = None /\
  range_computations
    (calls_during Examples.idle_widget (Edit_max_manual 50)) = 3%nat /\
  image_levels
    (calls_during Examples.idle_widget (Edit_max_manual 50)) = [(0, 50)] /\
  ColorBar.pic (_cb (step Examples.idle_widget (Edit_max_manual 50)))
    <> ColorBar.pic (_cb Examples.idle_widget).
Proof.
  split; [exact idle_widget_reachable|]. split; [reflexivity|].
  split; [vm_compute; reflexivity|]. split; [vm_compute; reflexivity|].
  vm_compute. intros H. discriminate H.
Qed.

(** C8, amended.  While the image item holds no data, a controller update
    (mode toggle or field edit) signals no error, but it is not a no-op:
    whatever the mode, the range calculation falls back to the manual
    bounds as they are after the event, and the update runs as usual with
    that range: three range computations, the legend redrawn for it, and
    [setImage] called with the absent image and these levels.  (The legend
    therefore changes whenever the manual bounds have changed.) *)
Theorem absent_sample_update (s : t) (ev : Event)
        (Him : _image s = None) (Hev : is_update ev = true) :
  fst (handle ev s) = Ok tt /\
  calls_during s ev
    = update_calls None (_min_manual (step s ev), _max_manual (step s ev)) /\
  _cb (step s ev)
    = redrawn (_cb s) (_min_manual (step s ev), _max_manual (step s ev)) /\
  _image (step s ev) = None.
Proof.
  destruct (setter_frame ev s) as (_ & Him' & _ & _).
  assert (cb_range (setter ev s)
          = Ok (_min_manual (setter ev s), _max_manual (setter ev s))) as Hr.
  { unfold cb_range. rewrite Him', Him. cbn [image_count_nonzero].
    now rewrite orb_true_r. }
  destruct (handle_update_ok ev s _ Hev Hr) as (H1 & H2 & H3 & H4 & H5).
  assert (_min_manual (step s ev) = _min_manual (setter ev s) /\
          _max_manual (step s ev) = _max_manual (setter ev s)) as [-> ->].
  { unfold settings in H4. injection H4 as _ _ -> -> _ _. split; reflexivity. }
  rewrite H2, H3, H5, Him. repeat split; assumption.
Qed.

Lemma absent_sample_update_witness :
  _image Examples.idle_widget = None /\
  is_update (Edit_max_manual 50) = true /\
  fst (handle (Edit_max_manual 50) Examples.idle_widget) = Ok tt /\
  _image (step Examples.idle_widget (Edit_max_manual 50)) = None.
Proof.
  destruct (absent_sample_update Examples.idle_widget (Edit_max_manual 50)
              eq_refl eq_refl) as (H1 & _ & _ & H4).
  split; [reflexivity|]. split; [reflexivity|]. split; assumption.
Defined.

(** *** Who changes the stored bounds *)

Lemma get_cb_range_settings (s : t) :
  settings (snd (get_cb_range s)) = settings s.
Proof. rewrite get_cb_range_eq. destruct s. reflexivity. Qed.

Lemma refresh_colorbar_settings (s : t) :
  settings (snd (refresh_colorbar s)) = settings s.
Proof.
  unfold refresh_colorbar, bind. rewrite get_cb_range_eq.
  destruct (cb_range s); destruct s; reflexivity.
Qed.

Lemma refresh_image_settings (s : t) :
  settings (snd (refresh_image s)) = settings s.
Proof.
  unfold refresh_image, bind, gets. rewrite get_cb_range_eq.
  destruct (cb_range s) as [r|e]; [|destruct s; reflexivity].
  cbn [modify]. rewrite refresh_colorbar_settings.
  destruct s. reflexivity.
Qed.

(** An update event in a widget with percentiles in range: the handler
    returns, and what the setter made stays. *)
Lemma update_event_returns (ev : Event) (s : t) :
  is_update ev = true -> percentiles_in_range s ->
  exists s',
    handle ev s = (Ok tt, s') /\
    settings s' = settings (setter ev s) /\
    _image s' = _image s /\
    percentiles_in_range s'.
Proof.
  intros Hev Hp.
  destruct (cb_range_returns _ (setter_in_range ev s Hp)) as (r & Hr).
  destruct (handle_update_ok ev s r Hev Hr) as (H1 & _ & _ & H4 & H5).
  exists (step s ev).
  split; [|split; [exact H4|split; [exact H5|]]].
  - unfold step. destruct (handle ev s) as [res s']. simpl in *. now subst.
  - now apply percentiles_in_range_step.
Qed.

(** What one [setValue] of [set_image] does to the four bounds. *)

Lemma setValue_min_manual_returns (v : Q) (s : t) :
  percentiles_in_range s ->
  exists s',
    setValue_min_manual v s = (Ok tt, s') /\
    percentiles_in_range s' /\ _image s' = _image s /\
    bounds_eq (bounds s')
              (v, _max_manual s, _min_percentile s, _max_percentile s).
Proof.
  intros Hp. unfold setValue_min_manual, bind, gets.
  destruct (Qeq_bool v (_min_manual s)) eqn:E.
  - exists s. apply Qeq_bool_iff in E. repeat split; try apply Hp.
    now symmetry.
  - rewrite (proj1 handle_edit v).
    destruct (update_event_returns (Edit_min_manual v) s eq_refl Hp)
      as (s' & H1 & H2 & H3 & H4).
    exists s'. split; [exact H1|]. split; [exact H4|]. split; [exact H3|].
    unfold settings in H2. destruct s, s'. cbn in H2 |- *.
    injection H2 as _ _ -> -> -> ->. repeat split; reflexivity.
Qed.

Lemma setValue_max_manual_returns (v : Q) (s : t) :
  percentiles_in_range s ->
  exists s',
    setValue_max_manual v s = (Ok tt, s') /\
    percentiles_in_range s' /\ _image s' = _image s /\
    bounds_eq (bounds s')
              (_min_manual s, v, _min_percentile s, _max_percentile s).
Proof.
  intros Hp. unfold setValue_max_manual, bind, gets.
  destruct (Qeq_bool v (_max_manual s)) eqn:E.
  - exists s. apply Qeq_bool_iff in E. repeat split; try apply Hp.
    now symmetry.
  - rewrite (proj1 (proj2 handle_edit) v).
    destruct (update_event_returns (Edit_max_manual v) s eq_refl Hp)
      as (s' & H1 & H2 & H3 & H4).
    exists s'. split; [exact H1|]. split; [exact H4|]. split; [exact H3|].
    unfold settings in H2. destruct s, s'. cbn in H2 |- *.
    injection H2 as _ _ -> -> -> ->. repeat split; reflexivity.
Qed.

Lemma setValue_min_percentile_returns (v : Q) (s : t) :
  percentiles_in_range s ->
  exists s',
    setValue_min_percentile v s = (Ok tt, s') /\
    percentiles_in_range s' /\ _image s' = _image s /\
    bounds_eq (bounds s')
              (_min_manual s, _max_manual s, clamp 0 100 v,
               _max_percentile s).
Proof.
  intros Hp. unfold setValue_min_percentile, bind, gets.
  destruct (Qeq_bool (clamp 0 100 v) (_min_percentile s)) eqn:E.
  - exists s. apply Qeq_bool_iff in E. repeat split; try apply Hp.
    now symmetry.
  - rewrite (proj1 (proj2 (proj2 handle_edit)) v).
    destruct (update_event_returns (Edit_min_percentile v) s eq_refl Hp)
      as (s' & H1 & H2 & H3 & H4).
    exists s'. split; [exact H1|]. split; [exact H4|]. split; [exact H3|].
    unfold settings in H2. destruct s, s'. cbn in H2 |- *.
    injection H2 as _ _ -> -> -> ->. repeat split; reflexivity.
Qed.

Lemma setValue_max_percentile_returns (v : Q) (s : t) :
  percentiles_in_range s ->
  exists s',
    setValue_max_percentile v s = (Ok tt, s') /\
    percentiles_in_range s' /\ _image s' = _image s /\
    bounds_eq (bounds s')
              (_min_manual s, _max_manual s, _min_percentile s,
               clamp 0 100 v).
Proof.
  intros Hp. unfold setValue_max_percentile, bind, gets.
  destruct (Qeq_bool (clamp 0 100 v) (_max_percentile s)) eqn:E.
  - exists s. apply Qeq_bool_iff in E. repeat split; try apply Hp.
    now symmetry.
  - rewrite (proj2 (proj2 (proj2 handle_edit)) v).
    destruct (update_event_returns (Edit_max_percentile v) s eq_refl Hp)
      as (s' & H1 & H2 & H3 & H4).
    exists s'. split; [exact H1|]. split; [exact H4|]. split; [exact H3|].
    unfold settings in H2. destruct s, s'. cbn in H2 |- *.
    injection H2 as _ _ -> -> -> ->. repeat split; reflexivity.
Qed.

Lemma bind_ok {A B} (m : M A) (k : A -> M B) (s s' : t) (a : A) :
  m s = (Ok a, s') -> bind m k s = k a s'.
Proof. intros E. unfold bind. now rewrite E. Qed.

Lemma refresh_colorbar_returns (s : t) :
  percentiles_in_range s -> fst (refresh_colorbar s) = Ok tt.
Proof.
  intros Hp. destruct (cb_range_returns s Hp) as (r & Hr).
  unfold refresh_colorbar, bind. now rewrite get_cb_range_eq, Hr.
Qed.

Lemma amin_amax_returns (l : list Q) :
  l <> [] -> exists lo hi, amin l = Ok lo /\ amax l = Ok hi.
Proof. destruct l; [contradiction | simpl; eauto]. Qed.

(** [set_image] on an image with at least one cell, in a widget with
    percentiles in range. *)
Lemma set_image_bounds (s : t) (img : Sample) :
  percentiles_in_range s -> ravel img <> [] ->
  exists lo hi,
    amin (ravel img) = Ok lo /\ amax (ravel img) = Ok hi /\
    fst (set_image img s) = Ok tt /\
    bounds_eq (bounds (snd (set_image img s))) (lo, hi, 0, 100).
Proof.
  intros Hp Hne.
  destruct (amin_amax_returns _ Hne) as (lo & hi & Hlo & Hhi).
  exists lo, hi. split; [exact Hlo|]. split; [exact Hhi|].
  unfold set_image.
  rewrite (bind_ok _ _ s (with_image (Some img) s) tt) by reflexivity.
  assert (percentiles_in_range (with_image (Some img) s)) as Hp1
    by (destruct s; exact Hp).
  set (s1 := with_image (Some img) s) in *.
  rewrite (bind_ok _ _ s1 s1 lo) by (unfold lift; now rewrite Hlo).
  destruct (setValue_min_manual_returns lo s1 Hp1) as (s2 & E2 & Hp2 & _ & B2).
  rewrite (bind_ok _ _ s1 s2 tt E2).
  destruct (setValue_min_percentile_returns 0 s2 Hp2)
    as (s3 & E3 & Hp3 & _ & B3).
  rewrite (bind_ok _ _ s2 s3 tt E3).
  rewrite (bind_ok _ _ s3 s3 hi) by (unfold lift; now rewrite Hhi).
  destruct (setValue_max_manual_returns hi s3 Hp3) as (s4 & E4 & Hp4 & _ & B4).
  rewrite (bind_ok _ _ s3 s4 tt E4).
  destruct (setValue_max_percentile_returns 100 s4 Hp4)
    as (s5 & E5 & Hp5 & _ & B5).
  rewrite (bind_ok _ _ s4 s5 tt E5).
  split; [now apply refresh_colorbar_returns|].
  pose proof (refresh_colorbar_settings s5) as F.
  change (clamp 0 100 0) with 0 in B3.
  change (clamp 0 100 100) with 100 in B5.
  unfold settings in F. injection F as _ _ F1 F2 F3 F4.
  unfold bounds, bounds_eq in *. rewrite F1, F2, F3, F4.
  destruct B2 as (? & ? & ? & ?), B3 as (? & ? & ? & ?),
           B4 as (? & ? & ? & ?), B5 as (? & ? & ? & ?).
  repeat split; lra.
Qed.

Lemma tuned_widget_reachable : reachable Examples.tuned_widget.
Proof.
  assert (Examples.built true false true Examples.grid_10x10
            [Edit_min_percentile 10; Edit_max_percentile 90;
             Edit_min_manual 3]
          = Examples.tuned_widget) as <- by (vm_compute; reflexivity).
  apply built_reachable. vm_compute. reflexivity.
Qed.

(** C7, as stated, fails: the reachable widget in MANUAL mode with manual
    bounds (3, 40) and percentile bounds (10, 90) is, after [set_image]
    with the all-zero scan, in PERCENTILE mode with manual bounds (0, 0)
    and percentile bounds (0, 100). *)
Lemma set_image_overwrites_bounds :
  reachable Examples.tuned_widget /\
  settings Examples.tuned_widget = (true, false, (3, 40), (10, 90)) /\
  settings (step Examples.tuned_widget (Set_image Examples.zero_image))
    = (false, true, (0, 0), (0, 100)).
Proof.
  split; [exact tuned_widget_reachable|].
  split; vm_compute; reflexivity.
Qed.

(** C7, amended.  The two buttons and the four stored bounds are changed
    by the user-facing setters and by [set_image]: supplying a new image
    widget overwrites the manual bounds with the minimum and the maximum
    of its image and resets the percentile bounds to (0, 100) (the slots
    of the spin boxes, which run on the way, may also switch the mode).
    The other operations leave them unchanged: [get_cb_range],
    [refresh_colorbar], [refresh_image], [update_cb_range], and a
    replacement of the data held by the current image item. *)
Theorem stored_bounds_frame (s : t) (img : Sample)
        (Hp : percentiles_in_range s) (Hne : ravel img <> []) :
  (forall s0,
     settings (snd (get_cb_range s0)) = settings s0 /\
     settings (snd (refresh_colorbar s0)) = settings s0 /\
     settings (snd (refresh_image s0)) = settings s0 /\
     settings (snd (update_cb_range s0)) = settings s0 /\
     forall im, settings (step s0 (Image_data im)) = settings s0) /\
  exists lo hi,
    amin (ravel img) = Ok lo /\ amax (ravel img) = Ok hi /\
    fst (handle (Set_image img) s) = Ok tt /\
    bounds_eq (bounds (step s (Set_image img))) (lo, hi, 0, 100).
Proof.
  split.
  - intros s0.
    split; [apply get_cb_range_settings|].
    split; [apply refresh_colorbar_settings|].
    split; [apply refresh_image_settings|].
    split; [apply update_cb_range_settings|].
    intros im. destruct s0. reflexivity.
  - exact (set_image_bounds s img Hp Hne).
Qed.

Lemma stored_bounds_frame_witness :
  percentiles_in_range Examples.tuned_widget /\
  ravel Examples.zero_image <> [] /\
  exists lo hi,
    amin (ravel Examples.zero_image) = Ok lo /\
    amax (ravel Examples.zero_image) = Ok hi /\
    fst (handle (Set_image Examples.zero_image) Examples.tuned_widget)
      = Ok tt /\
    bounds_eq
      (bounds (step Examples.tuned_widget (Set_image Examples.zero_image)))
      (lo, hi, 0, 100).
Proof.
  assert (percentiles_in_range Examples.tuned_widget) as Hp.
  { unfold percentiles_in_range. cbn. lra. }
  assert (ravel Examples.zero_image <> []) as Hne by discriminate.
  split; [exact Hp|]. split; [exact Hne|].
  exact (proj2 (stored_bounds_frame Examples.tuned_widget
                  Examples.zero_image Hp Hne)).
Defined.

End Controller.

(** ** The Cornerstone spectrometer module *)

Module CornerstoneFacts.
Import SpectrometerInterface CornerstoneSpectrometer.

(** [_build_constraints] succeeds exactly when each of the three grating
    options lists at least two values.  It then declares two gratings, made
    of the first two values of each option (further values are ignored),
    and the two side ports, in the order in which [get_input_port] and
    [get_output_port] report them, neither motorized and each with the slit
    range 10e-6 .. 1000e-6.  Otherwise it raises [IndexError]. *)
Theorem build_constraints_outcome (cfg : Config) (self : t) :
  match _build_constraints cfg with
  | inr c =>
      (2 <= length (_grating_ruling cfg))%nat /\
      (2 <= length (_grating_blaze cfg))%nat /\
      (2 <= length (_grating_max_wavelength cfg))%nat /\
      gratings c
        = map (fun rbm => mkGrating (Some (fst (fst rbm)))
                                    (Some (snd (fst rbm)))
                                    (Some (snd rbm)))
              (combine (combine (firstn 2 (_grating_ruling cfg))
                                (firstn 2 (_grating_blaze cfg)))
                       (firstn 2 (_grating_max_wavelength cfg))) /\
      length (gratings c) = 2%nat /\
      map type (ports c) = [get_input_port self; get_output_port self] /\
      Forall (fun p => is_motorized p = false /\
                       min (constraints p) == 10 / 1000000 /\
                       max (constraints p) == 1000 / 1000000 /\
                       min (constraints p) < max (constraints p))
             (ports c) /\
      focal_length c = None /\ angular_deviation c = None /\
      focal_tilt c = None
  | inl e =>
      e = IndexError /\
      ((length (_grating_ruling cfg) < 2)%nat \/
       (length (_grating_blaze cfg) < 2)%nat \/
       (length (_grating_max_wavelength cfg) < 2)%nat)
  end.
Proof.
  destruct cfg as [auto rul bla mx]. unfold _build_constraints.
  cbn [_grating_ruling _grating_blaze _grating_max_wavelength].
  destruct rul as [|r0 [|r1 rr]]; destruct bla as [|b0 [|b1 bb]];
    destruct mx as [|m0 [|m1 mm]]; cbn;
    try (split; [reflexivity | lia]).
  split; [lia|]. split; [lia|]. split; [lia|].
  split; [reflexivity|]. split; [reflexivity|]. split; [reflexivity|].
  split; [|repeat split].
  constructor; [|constructor; [|constructor]];
    (split; [reflexivity|]); (split; [reflexivity|]);
    (split; [reflexivity|]); vm_compute; reflexivity.
Qed.

Lemma serve_ready (self : t) (r : Request) :
  get_ready_state self = true ->
  module_state (serve self r) = module_state self /\
  device_calls (serve self r) = device_calls self ++ [device_call_of r] /\
  warnings (serve self r) = warnings self /\
  config (serve self r) = config self /\
  _constraints (serve self r) = _constraints self.
Proof.
  intros H. destruct self as [cfg st calls w c].
  unfold get_ready_state in H. cbn in H.
  destruct st; try discriminate H.
  destruct r; repeat split.
Qed.

Lemma serve_busy (self : t) (r : Request) :
  get_ready_state self = false ->
  serve self r = warn self.
Proof.
  intros H. destruct r; unfold serve, set_grating, set_wavelength;
    now rewrite H.
Qed.

(** Requests to change the grating or the wavelength reach the device
    only while the module is idle.  An idle module passes every request on,
    in order, as one device call (the grating index shifted by one, the
    wavelength in nanometres), and is idle again afterwards; a module that
    is not idle makes no device call at all, logs one warning per request
    and keeps its state. *)
Theorem serve_all_gated (self : t) (rs : list Request) :
  module_state (serve_all self rs) = module_state self /\
  device_calls (serve_all self rs)
    = device_calls self
        ++ (if get_ready_state self then map device_call_of rs else []) /\
  warnings (serve_all self rs)
    = (warnings self
       + (if get_ready_state self then 0 else length rs))%nat /\
  config (serve_all self rs) = config self /\
  _constraints (serve_all self rs) = _constraints self.
Proof.
  revert self. induction rs as [|r rs IH]; intros self.
  - cbn. destruct (get_ready_state self); rewrite app_nil_r;
      repeat split; lia.
  - cbn [serve_all fold_left]. fold (serve_all (serve self r) rs).
    destruct (IH (serve self r)) as (I1 & I2 & I3 & I4 & I5).
    destruct (get_ready_state self) eqn:R.
    + destruct (serve_ready self r R) as (S1 & S2 & S3 & S4 & S5).
      assert (get_ready_state (serve self r) = true) as R'.
      { unfold get_ready_state in *. now rewrite S1. }
      rewrite R' in I2, I3.
      rewrite I1, I2, I3, I4, I5, S1, S2, S3, S4, S5.
      cbn [map length]. rewrite <- app_assoc. repeat split.
    + rewrite (serve_busy self r R) in *.
      assert (get_ready_state (warn self) = false) as R'.
      { destruct self. exact R. }
      rewrite R' in I2, I3.
      rewrite I1, I2, I3, I4, I5. destruct self. cbn. repeat split. lia.
Qed.

(** [on_activate] has three outcomes.  If the device does not connect it
    raises [IOError] after the connection attempt alone.  Otherwise it
    opens the shutter (when [shutter_auto] is set) and sends the four
    settings; if a grating option then turns out too short it raises
    [IndexError], leaving the device connected and the shutter open, and
    no constraints stored.  If it returns, the constraints of
    [_build_constraints] are the ones [get_constraints] returns. *)
Theorem on_activate_outcome (connects : bool) (self : t) :
  let sent :=
    (if _shutter_auto (config self) then [SetShutter true] else [])
      ++ [SetVendorID 1180; SetProductID 12;
          SetWaitTime 100; SetDeviceTimeout 500] in
  match fst (on_activate connects self) with
  | inl IOError =>
      connects = false /\
      device_calls (snd (on_activate connects self))
        = device_calls self ++ [Connect] /\
      get_constraints (snd (on_activate connects self))
        = get_constraints self
  | inl IndexError =>
      connects = true /\
      _build_constraints (config self) = inl IndexError /\
      device_calls (snd (on_activate connects self))
        = device_calls self ++ Connect :: sent /\
      get_constraints (snd (on_activate connects self))
        = get_constraints self
  | inr _ =>
      connects = true /\
      device_calls (snd (on_activate connects self))
        = device_calls self ++ Connect :: sent /\
      exists c, _build_constraints (config self) = inr c /\
                get_constraints (snd (on_activate connects self)) = Some c
  end.
Proof.
  destruct self as [cfg st calls w c]. unfold on_activate.
  cbn [config negb]. destruct connects; cbn [negb fst snd].
  2:{ repeat split. }
  pose proof (build_constraints_outcome cfg (mk cfg st calls w c)) as B.
  destruct (_build_constraints cfg) as [e|c'].
  - destruct B as [-> _]. cbn [fst snd].
    repeat split; destruct (_shutter_auto cfg); cbn;
      rewrite <- ?app_assoc; reflexivity.
  - cbn [fst snd]. split; [reflexivity|]. split.
    + destruct (_shutter_auto cfg); cbn; rewrite <- ?app_assoc; reflexivity.
    + exists c'. split; reflexivity.
Qed.

(** After a successful activation, deactivating closes the shutter exactly
    when activation opened it, and disconnects last. *)
Theorem activate_deactivate_calls (self : t) :
  fst (on_activate true self) = inr tt ->
  device_calls (on_deactivate (snd (on_activate true self)))
    = device_calls self
        ++ [Connect]
        ++ (if _shutter_auto (config self) then [SetShutter true] else [])
        ++ [SetVendorID 1180; SetProductID 12;
            SetWaitTime 100; SetDeviceTimeout 500]
        ++ (if _shutter_auto (config self) then [SetShutter false] else [])
        ++ [Disconnect].
Proof.
  destruct self as [cfg st calls w c]. unfold on_activate, on_deactivate.
  cbn [config negb].
  destruct (_build_constraints cfg) as [e|c']; cbn [fst snd];
    [discriminate|]. intros _.
  destruct cfg as [[] rul bla mx]; cbn; rewrite <- ?app_assoc; reflexivity.
Qed.

Lemma activate_deactivate_calls_witness :
  fst (on_activate true
         (mk Examples.three_gratings idle [] 0 None)) = inr tt /\
  device_calls
    (on_deactivate
       (snd (on_activate true (mk Examples.three_gratings idle [] 0 None))))
    = [Connect; SetShutter true; SetVendorID 1180; SetProductID 12;
       SetWaitTime 100; SetDeviceTimeout 500; SetShutter false; Disconnect].
Proof.
  split; [reflexivity|].
  exact (activate_deactivate_calls
           (mk Examples.three_gratings idle [] 0 None) eq_refl).
Defined.

End CornerstoneFacts.

(** ** The colour bar object *)

Module ColorBarFacts.
Import Np Qt ColorBar.

(** [np.min] returns a lower bound that the array attains. *)
Lemma fold_min_spec (l : list Q) (x : Q) :
  fold_left Qmin l x <= x /\
  (forall y, In y l -> fold_left Qmin l x <= y) /\
  (fold_left Qmin l x == x \/ exists y, In y l /\ fold_left Qmin l x == y).
Proof.
  revert x. induction l as [|z l IH]; intros x; simpl.
  - split; [apply Qle_refl|]. split; [tauto | left; reflexivity].
  - destruct (IH (Qmin x z)) as (H1 & H2 & H3).
    pose proof (Q.le_min_l x z). pose proof (Q.le_min_r x z).
    split; [eapply Qle_trans; eauto|]. split.
    + intros y [<-|Hy]; [eapply Qle_trans; eauto | auto].
    + destruct H3 as [H3|(y & Hy & H3)].
      * destruct (Q.min_spec x z) as [[_ E]|[_ E]].
        -- left. now rewrite H3.
        -- right. exists z. split; [now left | now rewrite H3].
      * right. exists y. split; [now right | exact H3].
Qed.

Lemma fold_max_spec (l : list Q) (x : Q) :
  x <= fold_left Qmax l x /\
  (forall y, In y l -> y <= fold_left Qmax l x) /\
  (fold_left Qmax l x == x \/ exists y, In y l /\ fold_left Qmax l x == y).
Proof.
  revert x. induction l as [|z l IH]; intros x; simpl.
  - split; [apply Qle_refl|]. split; [tauto | left; reflexivity].
  - destruct (IH (Qmax x z)) as (H1 & H2 & H3).
    pose proof (Q.le_max_l x z). pose proof (Q.le_max_r x z).
    split; [eapply Qle_trans; eauto|]. split.
    + intros y [<-|Hy]; [eapply Qle_trans; eauto | auto].
    + destruct H3 as [H3|(y & Hy & H3)].
      * destruct (Q.max_spec x z) as [[_ E]|[_ E]].
        -- right. exists z. split; [now left | now rewrite H3].
        -- left. now rewrite H3.
      * right. exists y. split; [now right | exact H3].
Qed.

Lemma amin_spec (l : list Q) (lo : Q) :
  amin l = Ok lo ->
  (forall y, In y l -> lo <= y) /\ exists y, In y l /\ y == lo.
Proof.
  destruct l as [|x l]; [discriminate|]. simpl. intros E. injection E as <-.
  destruct (fold_min_spec l x) as (H1 & H2 & H3). split.
  - intros y [<-|Hy]; auto.
  - destruct H3 as [H3|(y & Hy & H3)].
    + exists x. split; [now left | now symmetry].
    + exists y. split; [now right | now symmetry].
Qed.

Lemma amax_spec (l : list Q) (hi : Q) :
  amax l = Ok hi ->
  (forall y, In y l -> y <= hi) /\ exists y, In y l /\ y == hi.
Proof.
  destruct l as [|x l]; [discriminate|]. simpl. intros E. injection E as <-.
  destruct (fold_max_spec l x) as (H1 & H2 & H3). split.
  - intros y [<-|Hy]; auto.
  - destruct H3 as [H3|(y & Hy & H3)].
    + exists x. split; [now left | now symmetry].
    + exists y. split; [now right | now symmetry].
Qed.

(** The constructor of the colour bar fails exactly when the colour map
    has no stop (the minimum of an empty array raises [ValueError]); in
    every other case it returns a colour bar with one rescaled position per
    stop, the colours of the map and the width it was given. *)
Theorem init_outcome (cmap : ColorMap) (w cb_min cb_max : Q) :
  match init cmap w cb_min cb_max with
  | Ok cb =>
      pos cmap <> [] /\
      length (stops cb) = length (pos cmap) /\
      colors cb = color cmap /\
      width cb = w
  | Raise e => e = ValueError /\ pos cmap = []
  end.
Proof.
  unfold init, getStops, rescale.
  destruct (pos cmap) as [|x l]; cbn [amin amax]; [split; reflexivity|].
  cbn [refresh_colorbar stops colors width].
  split; [discriminate|]. split; [apply length_map|]. split; reflexivity.
Qed.

Lemma Forall2_map_right {A B} (R : A -> B -> Prop) (f : A -> B)
      (l : list A) :
  (forall x, In x l -> R x (f x)) -> Forall2 R l (map f l).
Proof.
  induction l as [|x l IH]; intros H; simpl; constructor.
  - apply H. now left.
  - apply IH. intros y Hy. apply H. now right.
Qed.

(** For a colour map with two stops at different positions the constructor
    rescales the positions to the unit interval: every stop becomes the
    finite value (position - min) / (max - min), which lies in [0, 1];
    a stop at the minimum becomes 0 and a stop at the maximum becomes 1. *)
Theorem rescale_unit_interval (cmap : ColorMap) (w cb_min cb_max x y : Q)
        (Hx : In x (pos cmap)) (Hy : In y (pos cmap)) (Hxy : x < y) :
  exists cb lo hi,
    init cmap w cb_min cb_max = Ok cb /\
    amin (pos cmap) = Ok lo /\ amax (pos cmap) = Ok hi /\ lo < hi /\
    Forall2 (fun raw s =>
               exists q, s = Fin q /\ q == (raw - lo) / (hi - lo) /\
                         0 <= q /\ q <= 1)
            (pos cmap) (stops cb) /\
    (exists q, In (Fin q) (stops cb) /\ q == 0) /\
    (exists q, In (Fin q) (stops cb) /\ q == 1).
Proof.
  unfold init, getStops, rescale.
  destruct (amin (pos cmap)) as [lo|e] eqn:Elo.
  2:{ destruct (pos cmap); [contradiction | discriminate]. }
  destruct (amax (pos cmap)) as [hi|e] eqn:Ehi.
  2:{ destruct (pos cmap); [contradiction | discriminate]. }
  destruct (amin_spec _ _ Elo) as (Hlo & ylo & Hylo & Eylo).
  destruct (amax_spec _ _ Ehi) as (Hhi & yhi & Hyhi & Eyhi).
  assert (lo < hi) as Hlt.
  { apply Qle_lt_trans with x; [auto|]. apply Qlt_le_trans with y; auto. }
  assert (forall raw, divide (raw - lo) (hi - lo)
                      = Fin ((raw - lo) / (hi - lo))) as Hdiv.
  { intros raw. unfold divide.
    destruct (Qeq_bool (hi - lo) 0) eqn:E; [|reflexivity].
    apply Qeq_bool_iff in E. lra. }
  eexists _, lo, hi. split; [reflexivity|].
  split; [reflexivity|]. split; [reflexivity|]. split; [exact Hlt|].
  cbn [refresh_colorbar stops]. split; [|split].
  - apply Forall2_map_right. intros raw Hraw. rewrite Hdiv.
    eexists. split; [reflexivity|]. split; [reflexivity|].
    pose proof (Hlo raw Hraw). pose proof (Hhi raw Hraw). split.
    + apply Qle_shift_div_l; lra.
    + apply Qle_shift_div_r; lra.
  - exists ((ylo - lo) / (hi - lo)). split.
    + rewrite <- Hdiv. apply in_map_iff. eauto.
    + rewrite Eylo. field. lra.
  - exists ((yhi - lo) / (hi - lo)). split.
    + rewrite <- Hdiv. apply in_map_iff. eauto.
    + rewrite Eyhi. field. lra.
Qed.

Lemma rescale_unit_interval_witness :
  In 0 (pos Examples.grey_cmap) /\ In 1 (pos Examples.grey_cmap) /\ 0 < 1 /\
  exists cb, init Examples.grey_cmap 100 0 100 = Ok cb /\
             exists q, In (Fin q) (stops cb) /\ q == 1.
Proof.
  assert (In 0 (pos Examples.grey_cmap)) as H0 by (simpl; auto).
  assert (In 1 (pos Examples.grey_cmap)) as H1 by (simpl; auto).
  assert (0 < 1) as H01 by reflexivity.
  destruct (rescale_unit_interval Examples.grey_cmap 100 0 100 0 1 H0 H1 H01)
    as (cb & lo & hi & E & _ & _ & _ & _ & _ & Q1).
  split; [exact H0|]. split; [exact H1|]. split; [exact H01|].
  exists cb. split; [exact E | exact Q1].
Defined.




End ColorBarFacts.

(** ** More on the range calculation *)

Module RangeFacts.
Import Np NpFacts PercentileFacts ColorbarWidget WidgetFacts.

Lemma sorted_ends_in (a : list Q) :
  a <> [] ->
  In (nth 0 (sort a) 0) a /\ In (nth (Nat.pred (length a)) (sort a) 0) a.
Proof.
  intros Ha. pose proof (nonempty_length a Ha) as Hn.
  split; apply (Permutation_in _ (Permutation_sym (sort_perm a)));
    apply nth_In; rewrite sort_length; lia.
Qed.

Lemma percentile_mode_branch (s : t) :
  mode s = PERCENTILE ->
  (1 <= image_count_nonzero (_image s))%nat ->
  image_nonzero (_image s) <> [] /\
  cb_range s
  = match Np.percentile (image_dtype (_image s))
                        (image_nonzero (_image s)) (_min_percentile s) with
    | Raise e => Raise e
    | Ok cb_min =>
        match Np.percentile (image_dtype (_image s))
                            (image_nonzero (_image s))
                            (_max_percentile s) with
        | Raise e => Raise e
        | Ok cb_max => Ok (cb_min, cb_max)
        end
    end.
Proof.
  intros Hmode Hnz. unfold mode in Hmode. unfold cb_range.
  destruct (manual s); [discriminate|].
  assert ((image_count_nonzero (_image s) <? 1)%nat = false) as T
    by (apply Nat.ltb_ge; exact Hnz).
  rewrite T. split; [now apply count_nonzero_values | reflexivity].
Qed.

(** In PERCENTILE mode, on an image with a nonzero entry whose pixel
    differences come out exact in its dtype, both ends of the range lie
    between the smallest and the largest nonzero value: whatever bounds
    [lo] and [hi] enclose the nonzero values enclose the range. *)
Theorem range_within_data (s : t) (lo hi : Q)
        (Hp : percentiles_in_range s)
        (Hmode : mode s = PERCENTILE)
        (Hnz : (1 <= image_count_nonzero (_image s))%nat)
        (Hd : differences_exact s)
        (Hb : forall x, In x (image_nonzero (_image s)) ->
                        lo <= x /\ x <= hi) :
  exists r,
    fst (get_cb_range s) = Ok r /\
    lo <= fst r /\ fst r <= hi /\ lo <= snd r /\ snd r <= hi.
Proof.
  destruct Hp as [[L0 L1] [H0 H1]].
  destruct (percentile_mode_branch s Hmode Hnz) as [Hne E].
  rewrite get_cb_range_eq. cbn [fst]. rewrite E.
  destruct (sorted_ends_in _ Hne) as [Hfirst Hlast].
  destruct (percentile_between _ _ _ Hd Hne L0 L1) as (p1 & -> & A1 & B1).
  destruct (percentile_between _ _ _ Hd Hne H0 H1) as (p2 & -> & A2 & B2).
  destruct (Hb _ Hfirst) as [F1 _]. destruct (Hb _ Hlast) as [_ F2].
  exists (p1, p2). cbn [fst snd]. split; [reflexivity|].
  repeat split; lra.
Qed.

Lemma range_within_data_witness :
  percentiles_in_range Examples.grid_widget /\
  mode Examples.grid_widget = PERCENTILE /\
  (1 <= image_count_nonzero (_image Examples.grid_widget))%nat /\
  differences_exact Examples.grid_widget /\
  (forall x, In x (image_nonzero (_image Examples.grid_widget)) ->
             1 <= x /\ x <= 40) /\
  exists r,
    fst (get_cb_range Examples.grid_widget) = Ok r /\
    1 <= fst r /\ fst r <= 40 /\ 1 <= snd r /\ snd r <= 40.
Proof.
  assert (percentiles_in_range Examples.grid_widget) as Hp.
  { unfold percentiles_in_range. cbn. lra. }
  assert (1 <= image_count_nonzero (_image Examples.grid_widget))%nat as Hnz.
  { vm_compute. lia. }
  assert (forall x, In x (image_nonzero (_image Examples.grid_widget)) ->
                    1 <= x /\ x <= 40) as Hb.
  { intros x Hx. apply RangeCalculation.one_to_forty_bounds.
    exact Hx. }
  assert (differences_exact Examples.grid_widget) as Hd
    by apply exact_differences_floating.
  split; [exact Hp|]. split; [reflexivity|]. split; [exact Hnz|].
  split; [exact Hd|]. split; [exact Hb|].
  exact (range_within_data Examples.grid_widget 1 40 Hp eq_refl Hnz Hd Hb).
Defined.

(** When all nonzero entries of the image have the same value [v], the
    range in PERCENTILE mode is (v, v) whatever the two percentiles are: a
    range with min = max is returned, not refused. *)
Theorem constant_image_range (s : t) (v : Q)
        (Hp : percentiles_in_range s)
        (Hmode : mode s = PERCENTILE)
        (Hnz : (1 <= image_count_nonzero (_image s))%nat)
        (Hv : forall x, In x (image_nonzero (_image s)) -> x == v) :
  exists r, fst (get_cb_range s) = Ok r /\ fst r == v /\ snd r == v.
Proof.
  destruct (range_within_data s v v Hp Hmode Hnz) as (r & E & A & B & C & D).
  - intros x y Hx Hy _.
    assert (x == y) as Exy by (rewrite (Hv x Hx), (Hv y Hy); reflexivity).
    rewrite (subtract_same _ x y Exy). lra.
  - intros x Hx. rewrite (Hv x Hx). split; apply Qle_refl.
  - exists r. split; [exact E|]. split; apply Qle_antisym; assumption.
Qed.

Lemma constant_image_range_witness :
  percentiles_in_range Examples.seven_widget /\
  mode Examples.seven_widget = PERCENTILE /\
  (1 <= image_count_nonzero (_image Examples.seven_widget))%nat /\
  (forall x, In x (image_nonzero (_image Examples.seven_widget)) ->
             x == 7) /\
  exists r,
    fst (get_cb_range Examples.seven_widget) = Ok r /\
    fst r == 7 /\ snd r == 7.
Proof.
  assert (percentiles_in_range Examples.seven_widget) as Hp.
  { unfold percentiles_in_range. cbn. lra. }
  assert (1 <= image_count_nonzero (_image Examples.seven_widget))%nat
    as Hnz by (vm_compute; lia).
  assert (forall x, In x (image_nonzero (_image Examples.seven_widget)) ->
                    x == 7) as Hv.
  { cbn. intros x [<-|[<-|[]]]; reflexivity. }
  split; [exact Hp|]. split; [reflexivity|]. split; [exact Hnz|].
  split; [exact Hv|].
  exact (constant_image_range Examples.seven_widget 7 Hp eq_refl Hnz Hv).
Defined.



Lemma nonzero_values_zero_rows (img : Sample) (zeros : list (list Q)) :
  Forall (Forall (fun x => x == 0)) zeros ->
  nonzero_values (append_rows img zeros) = nonzero_values img.
Proof.
  intros Hz. unfold nonzero_values, ravel, append_rows. cbn [rows].
  rewrite concat_app, filter_app.
  assert (filter is_nonzero (concat zeros) = []) as ->;
    [|apply app_nil_r].
  induction Hz as [|row zeros Hrow _ IH]; simpl; [reflexivity|].
  rewrite filter_app, IH, app_nil_r.
  induction Hrow as [|x row Hx _ IHr]; simpl; [reflexivity|].
  unfold is_nonzero at 1. apply Qeq_bool_iff in Hx. now rewrite Hx.
Qed.

(** Rows that have not been scanned yet do not influence the range:
    appending any number of all-zero rows to the image leaves the result of
    the range calculation as it is, in either mode. *)
Theorem zero_rows_ignored (s : t) (img : Sample) (zeros : list (list Q))
        (Himg : _image s = Some img)
        (Hz : Forall (Forall (fun x => x == 0)) zeros) :
  fst (get_cb_range (with_image (Some (append_rows img zeros)) s))
    = fst (get_cb_range s).
Proof.
  rewrite !get_cb_range_eq. cbn [fst]. unfold cb_range.
  destruct s as [e m p a b c d im cb tr]. cbn [_image] in Himg. subst im.
  cbv beta iota delta [with_image exclusive manual percentile
    _min_percentile _min_manual _max_percentile _max_manual _image _cb trace].
  cbn [image_count_nonzero image_nonzero image_dtype]. unfold count_nonzero.
  rewrite (nonzero_values_zero_rows img zeros Hz).
  reflexivity.
Qed.

Lemma zero_rows_ignored_witness :
  _image Examples.scan_a_widget = Some Examples.scan_a /\
  Forall (Forall (fun x => x == 0)) [[0; 0; 0]; [0; 0; 0]] /\
  fst (get_cb_range
         (with_image
            (Some (append_rows Examples.scan_a [[0; 0; 0]; [0; 0; 0]]))
            Examples.scan_a_widget))
    = fst (get_cb_range Examples.scan_a_widget).
Proof.
  assert (Forall (Forall (fun x => x == 0)) [[0; 0; 0]; [0; 0; 0]]) as Hz.
  { repeat constructor. }
  split; [reflexivity|]. split; [exact Hz|].
  exact (zero_rows_ignored Examples.scan_a_widget Examples.scan_a
           [[0; 0; 0]; [0; 0; 0]] eq_refl Hz).
Defined.

End RangeFacts.

(** ** The life of the widget *)

Module WidgetLifecycle.
Import Np ColorbarWidget WidgetFacts Controller.

(** In a widget reached from [__init__] by any sequence of events, both
    percentile boxes hold values in [0, 100], the range calculation
    returns, and every handler returns without an exception; the one
    exception is [set_image] with an image of size zero. *)
Theorem reachable_handlers_return (s : t) (ev : Event)
        (Hs : reachable s) :
  percentiles_in_range s /\
  (exists r, fst (get_cb_range s) = Ok r) /\
  match ev with
  | Set_image img => ravel img <> [] -> fst (handle ev s) = Ok tt
  | _ => fst (handle ev s) = Ok tt
  end.
Proof.
  destruct (reachable_invariants s Hs) as [Hp _].
  split; [exact Hp|]. split.
  { destruct (cb_range_returns s Hp) as (r & Hr). exists r.
    now rewrite get_cb_range_eq. }
  assert (forall ev', is_update ev' = true -> fst (handle ev' s) = Ok tt)
    as Hu.
  { intros ev' Hev.
    destruct (update_event_returns ev' s Hev Hp) as (s' & E & _).
    now rewrite E. }
  destruct ev; try (apply Hu; reflexivity).
  - intros Hne. cbn [handle].
    destruct (set_image_bounds s img Hp Hne) as (lo & hi & _ & _ & E & _).
    exact E.
  - reflexivity.
Qed.

Lemma reachable_handlers_return_witness :
  reachable Examples.tuned_widget /\
  percentiles_in_range Examples.tuned_widget /\
  fst (handle (Edit_max_percentile 250) Examples.tuned_widget) = Ok tt.
Proof.
  destruct (reachable_handlers_return Examples.tuned_widget
              (Edit_max_percentile 250) tuned_widget_reachable)
    as (Hp & _ & H).
  split; [exact tuned_widget_reachable|]. split; [exact Hp | exact H].
Defined.

(** What an update event leaves alone. *)
Lemma step_frame (ev : Event) (s : t) :
  is_update ev = true ->
  settings (step s ev) = settings (setter ev s) /\
  exclusive (step s ev) = exclusive s /\
  _image (step s ev) = _image s.
Proof.
  intros Hev. unfold step. rewrite (handle_update ev s Hev).
  destruct (update_cb_range_settings (setter ev s)) as (H1 & H2 & H3).
  destruct (setter_frame ev s) as (F1 & F2 & _).
  rewrite H1, H2, H3, F1, F2. repeat split.
Qed.

Lemma cb_range_settings (s s' : t) :
  settings s = settings s' -> _image s = _image s' ->
  cb_range s = cb_range s'.
Proof.
  unfold settings. intros E Him. injection E as E1 _ E3 E4 E5 E6.
  now apply cb_range_frame.
Qed.

(** With exclusive buttons, clicking the other button and then the
    original one again restores the buttons, leaves the four bounds as they
    were and so reproduces the range that was shown before. *)
Theorem toggle_round_trip (s : t)
        (Hs : reachable s) (He : exclusive s = true) :
  settings (run s (if manual s
                   then [Click_percentile; Click_manual]
                   else [Click_manual; Click_percentile]))
    = settings s /\
  fst (get_cb_range (run s (if manual s
                            then [Click_percentile; Click_manual]
                            else [Click_manual; Click_percentile])))
    = fst (get_cb_range s).
Proof.
  destruct (reachable_invariants s Hs) as [_ Hone]. specialize (Hone He).
  assert (forall a b,
            settings (run s [a; b]) = settings s ->
            is_update a = true -> is_update b = true ->
            settings (run s [a; b]) = settings s /\
            fst (get_cb_range (run s [a; b])) = fst (get_cb_range s)) as K.
  { intros a b E Ha Hb. split; [exact E|].
    rewrite !get_cb_range_eq. cbn [fst]. apply cb_range_settings; [exact E|].
    cbn [run fold_left].
    destruct (step_frame b (step s a) Hb) as (_ & _ & ->).
    now destruct (step_frame a s Ha) as (_ & _ & ->). }
  assert (forall a b, is_update a = true -> is_update b = true ->
            settings (run s [a; b])
            = settings (setter b (step s a))) as R.
  { intros a b Ha Hb. cbn [run fold_left].
    now destruct (step_frame b (step s a) Hb) as (-> & _ & _). }
  destruct (manual s) eqn:M.
  - apply K; try reflexivity. rewrite R by reflexivity.
    destruct (step_frame Click_percentile s eq_refl) as (S1 & S2 & _).
    cbn [setter]. rewrite S2, He.
    unfold settings in *. cbn [setter] in S1. rewrite He in S1.
    destruct s as [e m p a b c d im cb tr].
    destruct (step _ Click_percentile) as [e1 m1 p1 a1 b1 c1 d1 im1 cb1 tr1].
    cbn in *. injection S1 as -> -> -> -> -> ->. subst m.
    destruct p; [discriminate Hone | reflexivity].
  - apply K; try reflexivity. rewrite R by reflexivity.
    destruct (step_frame Click_manual s eq_refl) as (S1 & S2 & _).
    cbn [setter]. rewrite S2, He.
    unfold settings in *. cbn [setter] in S1. rewrite He in S1.
    destruct s as [e m p a b c d im cb tr].
    destruct (step _ Click_manual) as [e1 m1 p1 a1 b1 c1 d1 im1 cb1 tr1].
    cbn in *. injection S1 as -> -> -> -> -> ->. subst m.
    destruct p; [reflexivity | discriminate Hone].
Qed.

Lemma toggle_round_trip_witness :
  reachable Examples.tuned_widget /\
  exclusive Examples.tuned_widget = true /\
  settings (run Examples.tuned_widget [Click_percentile; Click_manual])
    = settings Examples.tuned_widget.
Proof.
  split; [exact tuned_widget_reachable|]. split; [reflexivity|].
  exact (proj1 (toggle_round_trip Examples.tuned_widget
                  tuned_widget_reachable eq_refl)).
Defined.

(** After every controller update in a reachable widget, the legend is
    the drawing of the range that [get_cb_range] returns in the new state:
    its gradient runs from that minimum to that maximum, its rectangle
    spans exactly that interval, and the levels handed to the image during
    the update are that range too. *)
Theorem legend_in_sync (s : t) (ev : Event)
        (Hs : reachable s) (Hev : is_update ev = true) :
  exists a b,
    fst (get_cb_range (step s ev)) = Ok (a, b) /\
    ColorBar.pic (_cb (step s ev))
      = [Qt.DrawBoundingRect; Qt.SetPen Qt.Black;
         Qt.SetBrush (ColorBar.gradient (_cb s) (ColorBar.width (_cb s)) a b);
         Qt.DrawRect (Qt.mkQRectF 0 a (ColorBar.width (_cb s)) (b - a))] /\
    image_levels (calls_during s ev) = [(a, b)].
Proof.
  destruct (reachable_invariants s Hs) as [Hp _].
  destruct (cb_range_returns _ (setter_in_range ev s Hp)) as ([a b] & Hr).
  destruct (handle_update_ok ev s (a, b) Hev Hr) as (_ & H2 & H3 & H4 & H5).
  exists a, b. split; [|split].
  - rewrite get_cb_range_eq. cbn [fst]. rewrite <- Hr.
    apply cb_range_settings; [exact H4|].
    rewrite H5. symmetry. apply setter_frame.
  - rewrite H3. destruct (_cb s). reflexivity.
  - rewrite H2. reflexivity.
Qed.

Lemma legend_in_sync_witness :
  reachable Examples.grid_widget /\
  is_update (Edit_max_manual 30) = true /\
  exists a b,
    fst (get_cb_range (step Examples.grid_widget (Edit_max_manual 30)))
      = Ok (a, b) /\
    image_levels (calls_during Examples.grid_widget (Edit_max_manual 30))
      = [(a, b)].
Proof.
  destruct (legend_in_sync Examples.grid_widget (Edit_max_manual 30)
              grid_widget_reachable eq_refl) as (a & b & H1 & _ & H3).
  split; [exact grid_widget_reachable|]. split; [reflexivity|].
  exists a, b. split; assumption.
Defined.

(** [set_image] with an image of size zero raises [ValueError] at the
    first [np.min]: the new image has already replaced the old one, but the
    bounds, the buttons, the legend and the trace of calls are as they
    were. *)
Theorem set_image_empty (s : t) (img : Sample) (Hempty : ravel img = []) :
  handle (Set_image img) s = (Raise ValueError, with_image (Some img) s).
Proof.
  cbn [handle]. unfold set_image.
  rewrite (bind_ok _ _ s (with_image (Some img) s) tt) by reflexivity.
  unfold bind at 1. unfold lift. rewrite Hempty. reflexivity.
Qed.

Lemma set_image_empty_witness :
  ravel (float_image [[]; []]) = [] /\
  handle (Set_image (float_image [[]; []])) Examples.tuned_widget
    = (Raise ValueError,
       with_image (Some (float_image [[]; []])) Examples.tuned_widget).
Proof.
  split; [reflexivity|].
  exact (set_image_empty Examples.tuned_widget (float_image [[]; []])
           eq_refl).
Defined.

Lemma refresh_colorbar_ok (s : t) (r : Q * Q) :
  cb_range s = Ok r ->
  refresh_colorbar s
  = (Ok tt,
     mk (exclusive s) (manual s) (percentile s)
        (_min_percentile s) (_min_manual s) (_max_percentile s)
        (_max_manual s) (_image s)
        (ColorBar.refresh_colorbar (_cb s) (fst r) (snd r) None None)
        (trace s ++ [GetCbRange; CbRefresh (fst r) (snd r)])).
Proof.
  intros Hr. unfold refresh_colorbar, bind.
  rewrite get_cb_range_eq, Hr. destruct s as [e m p a b c d im cb tr].
  cbv beta iota delta [modify record with_cb exclusive manual percentile
    _min_percentile _min_manual _max_percentile _max_manual _image _cb trace].
  now rewrite <- app_assoc.
Qed.

(** [set_image] itself only redraws the legend.  When the new image has
    the minimum and the maximum the manual boxes already hold, and the
    percentile boxes are at 0 and 100, no spin box changes, no slot runs
    and [setImage] is not called: the legend is redrawn for the range of
    the new image, while no levels are handed to the image item. *)
Theorem set_image_same_extremes (s : t) (img : Sample) (lo hi : Q)
        (Hp : percentiles_in_range s)
        (Hlo : amin (ravel img) = Ok lo) (Hhi : amax (ravel img) = Ok hi)
        (Emin : lo == _min_manual s) (Emax : hi == _max_manual s)
        (Elow : _min_percentile s == 0) (Ehigh : _max_percentile s == 100) :
  exists a b,
    cb_range (with_image (Some img) s) = Ok (a, b) /\
    fst (handle (Set_image img) s) = Ok tt /\
    calls_during s (Set_image img) = [GetCbRange; CbRefresh a b] /\
    image_levels (calls_during s (Set_image img)) = [] /\
    settings (step s (Set_image img)) = settings s /\
    _image (step s (Set_image img)) = Some img.
Proof.
  assert (percentiles_in_range (with_image (Some img) s)) as Hp1
    by (destruct s; exact Hp).
  destruct (cb_range_returns _ Hp1) as ([a b] & Hr).
  assert (handle (Set_image img) s
          = refresh_colorbar (with_image (Some img) s)) as E.
  { cbn [handle]. unfold set_image.
    rewrite (bind_ok _ _ s (with_image (Some img) s) tt) by reflexivity.
    set (s1 := with_image (Some img) s).
    rewrite (bind_ok _ _ s1 s1 lo) by (unfold lift; now rewrite Hlo).
    rewrite (bind_ok _ _ s1 s1 tt).
    2:{ unfold setValue_min_manual, bind, gets.
        replace (_min_manual s1) with (_min_manual s)
          by (destruct s; reflexivity).
        apply Qeq_bool_iff in Emin. now rewrite Emin. }
    rewrite (bind_ok _ _ s1 s1 tt).
    2:{ unfold setValue_min_percentile, bind, gets.
        replace (_min_percentile s1) with (_min_percentile s)
          by (destruct s; reflexivity).
        change (clamp 0 100 0) with 0.
        assert (Qeq_bool 0 (_min_percentile s) = true) as ->
          by (apply Qeq_bool_iff; now symmetry).
        reflexivity. }
    rewrite (bind_ok _ _ s1 s1 hi) by (unfold lift; now rewrite Hhi).
    rewrite (bind_ok _ _ s1 s1 tt).
    2:{ unfold setValue_max_manual, bind, gets.
        replace (_max_manual s1) with (_max_manual s)
          by (destruct s; reflexivity).
        apply Qeq_bool_iff in Emax. now rewrite Emax. }
    rewrite (bind_ok _ _ s1 s1 tt).
    2:{ unfold setValue_max_percentile, bind, gets.
        replace (_max_percentile s1) with (_max_percentile s)
          by (destruct s; reflexivity).
        change (clamp 0 100 100) with 100.
        assert (Qeq_bool 100 (_max_percentile s) = true) as ->
          by (apply Qeq_bool_iff; now symmetry).
        reflexivity. }
    reflexivity. }
  exists a, b. split; [exact Hr|].
  unfold calls_during, step. rewrite E, (refresh_colorbar_ok _ _ Hr).
  destruct s as [e m p mp mm xp xm im cb tr]. cbn [fst snd trace with_image].
  rewrite skipn_app_exact. repeat split.
Qed.

Lemma set_image_same_extremes_witness :
  percentiles_in_range Examples.scan_a_widget /\
  amin (ravel Examples.scan_b) = Ok 0 /\
  amax (ravel Examples.scan_b) = Ok 5 /\
  0 == _min_manual Examples.scan_a_widget /\
  5 == _max_manual Examples.scan_a_widget /\
  _min_percentile Examples.scan_a_widget == 0 /\
  _max_percentile Examples.scan_a_widget == 100 /\
  exists a b,
    calls_during Examples.scan_a_widget (Set_image Examples.scan_b)
      = [GetCbRange; CbRefresh a b] /\
    image_levels
      (calls_during Examples.scan_a_widget (Set_image Examples.scan_b)) = [].
Proof.
  assert (percentiles_in_range Examples.scan_a_widget) as Hp.
  { unfold percentiles_in_range. cbn. lra. }
  assert (amin (ravel Examples.scan_b) = Ok 0) as Hlo by reflexivity.
  assert (amax (ravel Examples.scan_b) = Ok 5) as Hhi by reflexivity.
  assert (0 == _min_manual Examples.scan_a_widget) as Emin by reflexivity.
  assert (5 == _max_manual Examples.scan_a_widget) as Emax by reflexivity.
  assert (_min_percentile Examples.scan_a_widget == 0) as Elow
    by reflexivity.
  assert (_max_percentile Examples.scan_a_widget == 100) as Ehigh
    by reflexivity.
  destruct (set_image_same_extremes Examples.scan_a_widget Examples.scan_b
              0 5 Hp Hlo Hhi Emin Emax Elow Ehigh)
    as (a & b & _ & _ & H & H' & _).
  split; [exact Hp|]. split; [exact Hlo|]. split; [exact Hhi|].
  split; [exact Emin|]. split; [exact Emax|].
  split; [exact Elow|]. split; [exact Ehigh|].
  exists a, b. split; assumption.
Defined.

Lemma exclusive_closed (e : bool) : setter_closed (fun s => exclusive s = e).
Proof.
  split; try (intros ? [] H; exact H).
  - intros [[] m p a b c d im cb tr] H; exact H.
  - intros [[] m p a b c d im cb tr] H; exact H.
  - intros [] H; exact H.
  - intros [] H; exact H.
Qed.

(** [set_image] on an image with at least one cell. *)
Lemma set_image_returns (s : t) (img : Sample) :
  percentiles_in_range s -> ravel img <> [] ->
  exists s',
    set_image img s = (Ok tt, s') /\
    percentiles_in_range s' /\
    exclusive s' = exclusive s /\
    _image s' = Some img /\
    exists lo hi,
      amin (ravel img) = Ok lo /\ amax (ravel img) = Ok hi /\
      bounds_eq (bounds s') (lo, hi, 0, 100).
Proof.
  intros Hp Hne.
  destruct (set_image_bounds s img Hp Hne) as (lo & hi & Hlo & Hhi & E & B).
  exists (snd (set_image img s)). split; [|split; [|split; [|split]]].
  - destruct (set_image img s) as [r s']. cbn in E |- *. now subst.
  - now apply inv_set_image; [apply percentiles_in_range_closed|].
  - now apply (inv_set_image _ (exclusive_closed (exclusive s))).
  - clear E B. unfold set_image.
    rewrite (bind_ok _ _ s (with_image (Some img) s) tt) by reflexivity.
    assert (percentiles_in_range (with_image (Some img) s)) as Hp1
      by (destruct s; exact Hp).
    assert (_image (with_image (Some img) s) = Some img) as I1
      by (destruct s; reflexivity).
    set (s1 := with_image (Some img) s) in *.
    rewrite (bind_ok _ _ s1 s1 lo) by (unfold lift; now rewrite Hlo).
    destruct (setValue_min_manual_returns lo s1 Hp1)
      as (s2 & E2 & Hp2 & I2 & _).
    rewrite (bind_ok _ _ s1 s2 tt E2).
    destruct (setValue_min_percentile_returns 0 s2 Hp2)
      as (s3 & E3 & Hp3 & I3 & _).
    rewrite (bind_ok _ _ s2 s3 tt E3).
    rewrite (bind_ok _ _ s3 s3 hi) by (unfold lift; now rewrite Hhi).
    destruct (setValue_max_manual_returns hi s3 Hp3)
      as (s4 & E4 & Hp4 & I4 & _).
    rewrite (bind_ok _ _ s3 s4 tt E4).
    destruct (setValue_max_percentile_returns 100 s4 Hp4)
      as (s5 & E5 & Hp5 & I5 & _).
    rewrite (bind_ok _ _ s4 s5 tt E5).
    destruct (cb_range_returns s5 Hp5) as (r & Hr).
    rewrite (refresh_colorbar_ok s5 r Hr). cbn [snd _image].
    congruence.
  - exists lo, hi. split; [exact Hlo|]. split; [exact Hhi | exact B].
Qed.

(** [ColorbarWidget.__init__] fails exactly when the colour map has no
    stop or the image has size zero, with [ValueError].  Otherwise the new
    widget holds the image, has the "percentile" button checked (and, with
    exclusive buttons, is in PERCENTILE mode), and its bounds are the
    minimum and maximum of the image and the percentiles 0 and 100. *)
Theorem widget_init_outcome (e m p : bool) (cmap : ColorBar.ColorMap)
        (img : Sample) :
  match init e m p cmap img with
  | Ok s =>
      ColorBar.pos cmap <> [] /\ ravel img <> [] /\
      exclusive s = e /\ _image s = Some img /\
      percentile s = true /\ (e = true -> mode s = PERCENTILE) /\
      exists lo hi,
        amin (ravel img) = Ok lo /\ amax (ravel img) = Ok hi /\
        bounds_eq (bounds s) (lo, hi, 0, 100)
  | Raise err =>
      err = ValueError /\ (ColorBar.pos cmap = [] \/ ravel img = [])
  end.
Proof.
  pose proof (ColorBarFacts.init_outcome cmap 100 0 100) as C.
  unfold init. destruct (ColorBar.init cmap 100 0 100) as [cb|x].
  2:{ destruct C as [-> C]. split; [reflexivity | now left]. }
  destruct C as (C & _).
  set (s0 := mk e m p 0 0 100 0 None cb []).
  assert (percentiles_in_range s0) as H0 by (split; split; cbn; lra).
  destruct (ravel img) as [|v l] eqn:R.
  - pose proof (set_image_empty s0 img R) as E. cbn [handle] in E.
    unfold bind at 1. rewrite E. split; [reflexivity | now right].
  - assert (ravel img <> []) as Hne by (rewrite R; discriminate).
    rewrite <- R.
    destruct (set_image_returns s0 img H0 Hne)
      as (s1 & E1 & Hp1 & X1 & I1 & lo & hi & Hlo & Hhi & B1).
    rewrite (bind_ok _ _ s0 s1 tt E1).
    destruct (cb_range_returns s1 Hp1) as (r & Hr).
    rewrite (bind_ok _ _ s1 _ tt (update_cb_range_ok s1 r Hr)).
    unfold setChecked_percentile, modify.
    destruct s1 as [e1 m1 p1 a1 b1 c1 d1 im1 cb1 tr1].
    cbn in X1, I1, B1 |- *. subst e1 im1.
    split; [exact C|]. split; [exact Hne|].
    split; [reflexivity|]. split; [reflexivity|]. split; [reflexivity|].
    split; [intros ->; reflexivity|].
    exists lo, hi. split; [exact Hlo|]. split; [exact Hhi | exact B1].
Qed.

End WidgetLifecycle.
